(** * Streaming response accumulator of [google.generativeai]

    A shallow embedding of [google/generativeai/types/generation_types.py]:
    the chunk merger ([_join_contents], [_join_safety_ratings_lists],
    [_join_candidates], [_join_candidate_lists], [_join_chunks]) and the
    blocking accumulator [GenerateContentResponse] ([from_iterator],
    [from_response], [__iter__], [resolve] and the quick accessors).

    Python exceptions are values of [exn] carried by the [result] monad;
    Python [dict]s are association lists in insertion order; the generator
    [__iter__] is a loop that collects what it yields and reports how it
    stopped. *)

From Stdlib Require Import ZArith Ascii String Bool Arith Lia List Sorted
  Permutation.
Import ListNotations.

Set Implicit Arguments.

(** ** The protocol messages ([google.ai.generativelanguage])

    Only the fields this module reads or writes are carried. Enumerations
    ([HarmCategory], [HarmProbability], [FinishReason], [BlockReason]) are
    open protocol integers. *)

Module glm.

Record Blob := { mime_type : string; data : string }.

(** [Part] has one [oneof] member: a text, a blob, or nothing set. *)
Inductive Part :=
| Part_text (s : string)
| Part_inline_data (b : Blob)
| Part_unset.

(** [part.text]: reading a member that is not set gives the default. *)
Definition text (p : Part) : string :=
  match p with
  | Part_text s => s
  | _ => EmptyString
  end.

(** ["text" in part] *)
Definition has_text (p : Part) : bool :=
  match p with
  | Part_text _ => true
  | _ => false
  end.

(** [part.text = s] on a copy: setting a member of a [oneof] clears the
    others. *)
Definition set_text (p : Part) (s : string) : Part := Part_text s.

Record Content := { parts : list Part; role : string }.

Record CitationSource :=
  { start_index : Z; end_index : Z; uri : string; license : string }.

Record CitationMetadata := { citation_sources : list CitationSource }.

Record SafetyRating := { category : Z; probability : Z; blocked : bool }.

Record Candidate :=
  { index : Z;
    content : Content;
    finish_reason : Z;
    safety_ratings : list SafetyRating;
    citation_metadata : CitationMetadata }.

Record PromptFeedback :=
  { block_reason : Z; feedback_safety_ratings : list SafetyRating }.

Record GenerateContentResponse :=
  { candidates : list Candidate; prompt_feedback : PromptFeedback }.

End glm.

(** ** Exceptions and the error monad *)

Inductive exn :=
| StopIteration
| IndexError
| AssertionError
| RuntimeError
| TypeError
| ValueError
| IncompleteIterationError
| BlockedPromptException (result : glm.GenerateContentResponse)
| TransportError (tag : string)   (* any other subclass of [Exception] *)
| Interrupt (tag : string)        (* [BaseException] only: KeyboardInterrupt, ... *)
| SilentError (tag : string).     (* an [Exception] whose class makes its
                                     instances falsy ([__bool__], [__len__]) *)

(** [except StopIteration] *)
Definition is_StopIteration (e : exn) : bool :=
  match e with
  | StopIteration => true
  | _ => false
  end.

(** [except Exception] *)
Definition is_Exception (e : exn) : bool :=
  match e with
  | Interrupt _ => false
  | _ => true
  end.

(** [if e:] for an exception instance: true unless its class says
    otherwise. *)
Definition truthy (e : exn) : bool :=
  match e with
  | SilentError _ => false
  | _ => true
  end.

Inductive result (A : Type) :=
| Ok (a : A)
| Raise (e : exn).

Arguments Ok {A} a.
Arguments Raise {A} e.

Definition bind {A B} (r : result A) (k : A -> result B) : result B :=
  match r with
  | Ok a => k a
  | Raise e => Raise e
  end.

Notation "x <- r ;; k" := (bind r (fun x => k))
  (at level 61, r at next level, right associativity).

(** A [for] loop whose body may raise and appends its value to a list. *)
Fixpoint mapM {A B} (f : A -> result B) (l : list A) : result (list B) :=
  match l with
  | [] => Ok []
  | x :: l' => y <- f x ;; ys <- mapM f l' ;; Ok (y :: ys)
  end.

(** ** Python dictionaries, keyed by protocol integers

    A [dict] keeps its keys in the order of their first insertion; assigning
    to a key that is present keeps its place. *)

Module PyDict.
Section Dict.
Variable V : Type.

Definition dict := list (Z * V).

(** [d[k] = v] *)
Fixpoint setitem (d : dict) (k : Z) (v : V) : dict :=
  match d with
  | [] => [(k, v)]
  | (k', v') :: d' =>
      if Z.eqb k' k then (k', v) :: d' else (k', v') :: setitem d' k v
  end.

(** [d.items()], [d.values()] *)
Definition items (d : dict) : list (Z * V) := d.
Definition values (d : dict) : list V := map snd d.

(** [sorted(d.items())]: the keys of a dict are distinct, so the order of
    the pairs is the order of their keys. *)
Fixpoint insert_sorted (kv : Z * V) (l : list (Z * V)) : list (Z * V) :=
  match l with
  | [] => [kv]
  | kv' :: l' =>
      if Z.leb (fst kv) (fst kv') then kv :: l else kv' :: insert_sorted kv l'
  end.

Definition sorted (l : list (Z * V)) : list (Z * V) :=
  fold_right insert_sorted [] l.

End Dict.

(** [d[k].append(x)] on a [collections.defaultdict(list)] *)
Fixpoint append_item {X} (d : dict (list X)) (k : Z) (x : X) : dict (list X) :=
  match d with
  | [] => [(k, [x])]
  | (k', l) :: d' =>
      if Z.eqb k' k then (k', l ++ [x]) :: d' else (k', l) :: append_item d' k x
  end.

End PyDict.

(** ** The chunk merger *)

Definition _join_citation_metadatas
    (citation_metadatas : list glm.CitationMetadata) : glm.CitationMetadata :=
  let citation_sources :=
    fold_left (fun acc citation_metadata =>
                 acc ++ glm.citation_sources citation_metadata)
              citation_metadatas [] in
  {| glm.citation_sources := citation_sources |}.

(** The body of the double loop of [_join_safety_ratings_lists]. *)
Definition record_rating
    (st : PyDict.dict Z * PyDict.dict (list bool)) (rating : glm.SafetyRating)
    : PyDict.dict Z * PyDict.dict (list bool) :=
  let (ratings, blocked) := st in
  (PyDict.setitem ratings (glm.category rating) (glm.probability rating),
   PyDict.append_item blocked (glm.category rating) (glm.blocked rating)).

Definition _join_safety_ratings_lists
    (safety_ratings_lists : list (list glm.SafetyRating))
    : list glm.SafetyRating :=
  let (ratings, blocked) :=
    fold_left (fun st safety_ratings_list =>
                 fold_left record_rating safety_ratings_list st)
              safety_ratings_lists ([], []) in
  let blocked :=
    map (fun kv : Z * list bool => (fst kv, existsb (fun b => b) (snd kv)))
        (PyDict.items blocked) in
  map (fun z : (Z * Z) * bool =>
         {| glm.category := fst (fst z);
            glm.probability := snd (fst z);
            glm.blocked := snd z |})
      (combine (PyDict.items ratings) (PyDict.values blocked)).

(** [not s] for a Python string *)
Definition falsy (s : string) : bool :=
  match s with
  | EmptyString => true
  | String _ _ => false
  end.

(** [merged_parts] is never empty: it is kept as the parts before the last
    one and the last one, [merged_parts = front ++ [cur]]. *)
Definition merge_part (merged_parts : list glm.Part * glm.Part) (part : glm.Part)
    : list glm.Part * glm.Part :=
  let (front, cur) := merged_parts in
  if falsy (glm.text cur) then (front ++ [cur], part)
  else if falsy (glm.text part) then (front ++ [cur], part)
  else (front, glm.set_text cur (String.append (glm.text cur) (glm.text part))).

(** The first loop of [_join_contents]: the parts of all contents. *)
Definition all_parts (contents : list glm.Content) : list glm.Part :=
  fold_left (fun parts content => parts ++ glm.parts content) contents [].

(** The second loop of [_join_contents], over the parts of all contents. *)
Definition merge_parts (parts : list glm.Part) : result (list glm.Part) :=
  match parts with
  | [] => Raise IndexError
  | p0 :: parts =>
      let (front, cur) := fold_left merge_part parts ([], p0) in
      Ok (front ++ [cur])
  end.

Definition _join_contents (contents : list glm.Content) : result glm.Content :=
  match contents with
  | [] => Raise IndexError
  | c0 :: _ =>
      let role := glm.role c0 in
      if forallb (fun c => String.eqb (glm.role c) role) contents then
        let parts := all_parts contents in
        merged_parts <- merge_parts parts ;;
        Ok {| glm.parts := merged_parts; glm.role := role |}
      else Raise AssertionError
  end.

Definition _join_candidates (candidates : list glm.Candidate)
    : result glm.Candidate :=
  match candidates with
  | [] => Raise IndexError
  | c0 :: _ =>
      let index := glm.index c0 in
      if forallb (fun c => Z.eqb (glm.index c) index) candidates then
        content <- _join_contents (map glm.content candidates) ;;
        Ok {| glm.index := index;
              glm.content := content;
              glm.finish_reason := glm.finish_reason (last candidates c0);
              glm.safety_ratings :=
                _join_safety_ratings_lists (map glm.safety_ratings candidates);
              glm.citation_metadata :=
                _join_citation_metadatas (map glm.citation_metadata candidates) |}
      else Raise AssertionError
  end.

Definition _join_candidate_lists (candidate_lists : list (list glm.Candidate))
    : result (list glm.Candidate) :=
  let candidates :=
    fold_left (fun d candidate_list =>
                 fold_left (fun d candidate =>
                              PyDict.append_item d (glm.index candidate) candidate)
                           candidate_list d)
              candidate_lists [] in
  mapM (fun kv : Z * list glm.Candidate => _join_candidates (snd kv))
       (PyDict.sorted (PyDict.items candidates)).

Definition _join_prompt_feedbacks (prompt_feedbacks : list glm.PromptFeedback)
    : result glm.PromptFeedback :=
  match prompt_feedbacks with
  | [] => Raise StopIteration
  | pf :: _ => Ok pf
  end.

Definition _join_chunks (chunks : list glm.GenerateContentResponse)
    : result glm.GenerateContentResponse :=
  candidates <- _join_candidate_lists (map glm.candidates chunks) ;;
  prompt_feedback <- _join_prompt_feedbacks (map glm.prompt_feedback chunks) ;;
  Ok {| glm.candidates := candidates; glm.prompt_feedback := prompt_feedback |}.

(** ** The upstream producer

    An iterator is what its future calls of [next] will give, each an item or
    a raised exception, and [StopIteration] for ever once they are used up;
    [calls] counts the invocations of [next]. *)

Record Iterator :=
  { pending : list (result glm.GenerateContentResponse); calls : nat }.

Definition next (it : Iterator) : result glm.GenerateContentResponse * Iterator :=
  match pending it with
  | [] => (Raise StopIteration, {| pending := []; calls := S (calls it) |})
  | r :: rest => (r, {| pending := rest; calls := S (calls it) |})
  end.

(** A finite producer that never fails. *)
Definition iter (items : list glm.GenerateContentResponse) : Iterator :=
  {| pending := map Ok items; calls := 0 |}.

(** ** The accumulator *)

Record GenerateContentResponse :=
  { _done : bool;
    _iterator : option Iterator;
    _result : glm.GenerateContentResponse;
    _chunks : list glm.GenerateContentResponse;
    _error : option exn }.

Definition __init__ (done : bool) (iterator : option Iterator)
    (result : glm.GenerateContentResponse)
    (chunks : list glm.GenerateContentResponse) : GenerateContentResponse :=
  {| _done := done;
     _iterator := iterator;
     _result := result;
     _chunks := chunks;
     _error :=
       if Z.eqb (glm.block_reason (glm.prompt_feedback result)) 0 then None
       else Some (BlockedPromptException result) |}.

Definition candidates (self : GenerateContentResponse)
    : result (list glm.Candidate) :=
  if negb (_done self) then Raise IncompleteIterationError
  else Ok (glm.candidates (_result self)).

Definition parts (self : GenerateContentResponse) : result (list glm.Part) :=
  candidates <- candidates self ;;
  match candidates with
  | [] => Raise ValueError
  | c0 :: _ =>
      if Nat.ltb 1 (length candidates) then Raise ValueError
      else Ok (glm.parts (glm.content c0))
  end.

Definition text (self : GenerateContentResponse) : result string :=
  parts <- parts self ;;
  if Nat.ltb 1 (length parts) then Raise ValueError
  else match parts with
       | [] => Raise IndexError
       | p0 :: _ =>
           if negb (glm.has_text p0) then Raise ValueError
           else Ok (glm.text p0)
       end.

Definition prompt_feedback (self : GenerateContentResponse)
    : glm.PromptFeedback :=
  glm.prompt_feedback (_result self).

(** [from_iterator] also hands back the producer as the call leaves it, since
    no accumulator holds it when the first pull raises. *)
Definition from_iterator (iterator : Iterator)
    : result GenerateContentResponse * Iterator :=
  let (pulled, iterator) := next iterator in
  (response <- pulled ;;
   Ok (__init__ false (Some iterator) response [response]),
   iterator).

Definition from_response (response : glm.GenerateContentResponse)
    : GenerateContentResponse :=
  __init__ true None response [response].

(** *** Field updates *)

Definition set_done (self : GenerateContentResponse) (b : bool) :=
  {| _done := b; _iterator := _iterator self; _result := _result self;
     _chunks := _chunks self; _error := _error self |}.

Definition set_iterator (self : GenerateContentResponse) (it : Iterator) :=
  {| _done := _done self; _iterator := Some it; _result := _result self;
     _chunks := _chunks self; _error := _error self |}.

Definition set_result (self : GenerateContentResponse)
    (r : glm.GenerateContentResponse) :=
  {| _done := _done self; _iterator := _iterator self; _result := r;
     _chunks := _chunks self; _error := _error self |}.

Definition set_chunks (self : GenerateContentResponse)
    (cs : list glm.GenerateContentResponse) :=
  {| _done := _done self; _iterator := _iterator self; _result := _result self;
     _chunks := cs; _error := _error self |}.

Definition set_error (self : GenerateContentResponse) (e : exn) :=
  {| _done := _done self; _iterator := _iterator self; _result := _result self;
     _chunks := _chunks self; _error := Some e |}.

(** [next(self._iterator)]; [next(None)] is a [TypeError]. *)
Definition pull (self : GenerateContentResponse)
    : result glm.GenerateContentResponse * GenerateContentResponse :=
  match _iterator self with
  | None => (Raise TypeError, self)
  | Some it => let (r, it') := next it in (r, set_iterator self it')
  end.

(** *** The generator [__iter__]

    How a run of the generator stops, and a whole run: the snapshots it
    yielded, how it stopped, and the accumulator as it leaves it. The consumer
    does not touch the accumulator between two yields. *)

Inductive stop :=
| Returned
| Raised (e : exn).

Record run :=
  { yielded : list GenerateContentResponse;
    how : stop;
    self_after : GenerateContentResponse }.

Inductive turn :=
| Yield (item : GenerateContentResponse) (self : GenerateContentResponse)
| Stop (s : stop) (self : GenerateContentResponse).

(** The look-ahead of one turn: [Some s] when the generator stops there. *)
Definition look_ahead (self : GenerateContentResponse)
    : option stop * GenerateContentResponse :=
  if _done self then (Some Returned, self)
  else
    let (pulled, self) := pull self in
    match pulled with
    | Raise e =>
        if is_StopIteration e then (None, set_done self true)
        else if is_Exception e then (None, set_done (set_error self e) true)
        else (Some (Raised e), self)
    | Ok item =>
        let self := set_chunks self (_chunks self ++ [item]) in
        match _join_chunks [_result self; item] with
        | Raise e => (Some (Raised e), self)
        | Ok joined => (None, set_result self joined)
        end
    end.

(** [if self._error:] the error the turn raises, if any. *)
Definition error_to_raise (self : GenerateContentResponse) : option exn :=
  match _error self with
  | Some e => if truthy e then Some e else None
  | None => None
  end.

(** One turn of [for n in itertools.count()]. *)
Definition loop_turn (self : GenerateContentResponse) (n : nat) : turn :=
  match error_to_raise self with
  | Some e => Stop (Raised e) self
  | None =>
      let (stopped, self) :=
        if Nat.leb (length (_chunks self)) (n + 1)   (* n >= len - 1 *)
        then look_ahead self
        else (None, self) in
      match stopped with
      | Some s => Stop s self
      | None =>
          match nth_error (_chunks self) n with
          | None => Stop (Raised IndexError) self
          | Some item => Yield (from_response item) self
          end
      end
  end.

Fixpoint loop (fuel : nat) (self : GenerateContentResponse) (n : nat)
    : option run :=
  match fuel with
  | O => None
  | S fuel =>
      match loop_turn self n with
      | Stop s self => Some {| yielded := []; how := s; self_after := self |}
      | Yield item self =>
          match loop fuel self (S n) with
          | None => None
          | Some r =>
              Some {| yielded := item :: yielded r; how := how r;
                      self_after := self_after r |}
          end
      end
  end.

(** Turns the loop can still take: one per buffered chunk, one per item the
    producer still holds, and the turn that stops it. *)
Definition turns_left (self : GenerateContentResponse) : nat :=
  length (_chunks self)
  + match _iterator self with
    | Some it => length (pending it)
    | None => 0
    end
  + 2.

Definition __iter__ (self : GenerateContentResponse) : option run :=
  if _done self then
    Some {| yielded := map from_response (_chunks self); how := Returned;
            self_after := self |}
  else
    match _chunks self with
    | [] =>
        (* the buffer is refilled before the loop; a [StopIteration] that
           escapes a generator body surfaces as a [RuntimeError] *)
        let (pulled, self) := pull self in
        match pulled with
        | Raise e =>
            Some {| yielded := [];
                    how := Raised (if is_StopIteration e then RuntimeError else e);
                    self_after := self |}
        | Ok item =>
            let self := set_chunks self (_chunks self ++ [item]) in
            loop (turns_left self) self 0
        end
    | _ :: _ => loop (turns_left self) self 0
    end.

(** [resolve]: how the call ends and the accumulator it leaves. *)
Definition resolve (self : GenerateContentResponse)
    : option (stop * GenerateContentResponse) :=
  if _done self then Some (Returned, self)
  else
    match __iter__ self with
    | None => None
    | Some r => Some (how r, self_after r)
    end.

(** The running result kept by [__iter__]: it starts as the first chunk and
    every chunk pulled later is joined to it. *)
Definition accumulate (first : glm.GenerateContentResponse)
    (rest : list glm.GenerateContentResponse)
    : result glm.GenerateContentResponse :=
  fold_left (fun acc item => result <- acc ;; _join_chunks [result; item])
            rest (Ok first).

(** ** Views of the accumulator used by the proofs *)

(** A run with some more snapshots yielded before it. *)
Definition prepend (ys : list GenerateContentResponse) (r : option run)
    : option run :=
  match r with
  | None => None
  | Some r =>
      Some {| yielded := ys ++ yielded r; how := how r;
              self_after := self_after r |}
  end.

(** An accumulator in the pending state: nothing latched, [chunks] buffered,
    [future] still to come from the producer. *)
Definition pending_state (chunks : list glm.GenerateContentResponse)
    (res : glm.GenerateContentResponse)
    (future : list (result glm.GenerateContentResponse)) (k : nat)
    : GenerateContentResponse :=
  {| _done := false;
     _iterator := Some {| pending := future; calls := k |};
     _result := res;
     _chunks := chunks;
     _error := None |}.

(** The state a run leaves when the producer ends or fails. *)
Definition final_state (chunks : list glm.GenerateContentResponse)
    (res : glm.GenerateContentResponse)
    (future : list (result glm.GenerateContentResponse)) (k : nat)
    (error : option exn) : GenerateContentResponse :=
  {| _done := true;
     _iterator := Some {| pending := future; calls := k |};
     _result := res;
     _chunks := chunks;
     _error := error |}.

(** An upper bound of the length the buffer can still reach. *)
Definition reach (self : GenerateContentResponse) : nat :=
  length (_chunks self)
  + (if _done self then 0
     else match _iterator self with
          | Some it => length (pending it)
          | None => 0
          end).

(** A turn that yields has its chunk in the buffer. *)
Ltac yield_in_buffer cs n :=
  let Hn := fresh "Hn" in
  let H := fresh "H" in
  destruct (nth_error cs n) eqn:Hn; [|discriminate];
  intros H; injection H as <- <-; simpl;
  split; [apply nth_error_Some; congruence | try rewrite length_app; simpl; lia].

(** ** Sample messages *)

Module Samples.

Definition candidate (index : Z) (role : string) (parts : list glm.Part)
    (finish_reason : Z) : glm.Candidate :=
  {| glm.index := index;
     glm.content := {| glm.parts := parts; glm.role := role |};
     glm.finish_reason := finish_reason;
     glm.safety_ratings := [];
     glm.citation_metadata := {| glm.citation_sources := [] |} |}.

Definition message (candidates : list glm.Candidate) (block_reason : Z)
    : glm.GenerateContentResponse :=
  {| glm.candidates := candidates;
     glm.prompt_feedback :=
       {| glm.block_reason := block_reason;
          glm.feedback_safety_ratings := [] |} |}.

Definition hello :=
  message [candidate 0 "model" [glm.Part_text "Hello, "] 0] 0.
Definition world :=
  message [candidate 0 "model" [glm.Part_text "world!"] 1] 0.
(** a chunk whose candidate brings no part *)
Definition bare := message [candidate 0 "model" [] 1] 0.
(** a chunk whose candidate speaks in another role *)
Definition stray := message [candidate 0 "user" [glm.Part_text "?"] 0] 0.
(** a refused prompt: feedback only *)
Definition refused := message [] 1.
(** one chunk with two text parts in a row *)
Definition split_text :=
  message [candidate 0 "model" [glm.Part_text "a"; glm.Part_text "b"] 0] 0.

Definition rating (category probability : Z) (blocked : bool)
    : glm.SafetyRating :=
  {| glm.category := category;
     glm.probability := probability;
     glm.blocked := blocked |}.

Definition source (start_index end_index : Z) (uri : string)
    : glm.CitationSource :=
  {| glm.start_index := start_index;
     glm.end_index := end_index;
     glm.uri := uri;
     glm.license := EmptyString |}.

(** a candidate of the model with one text part, rated and with sources *)
Definition annotated (index : Z) (text : string) (finish_reason : Z)
    (ratings : list glm.SafetyRating) (sources : list glm.CitationSource)
    : glm.Candidate :=
  {| glm.index := index;
     glm.content := {| glm.parts := [glm.Part_text text];
                       glm.role := "model" |};
     glm.finish_reason := finish_reason;
     glm.safety_ratings := ratings;
     glm.citation_metadata := {| glm.citation_sources := sources |} |}.

(** two chunks of one candidate: the first has a blocked rating of
    category 2, the second rates a category more and cites a source again *)
Definition cited_first :=
  message [annotated 0 "Hello, " 0
             [rating 1 2 false; rating 2 1 true]
             [source 0 5 "a"]] 0.
Definition cited_second :=
  message [annotated 0 "world!" 1
             [rating 1 3 false; rating 2 1 false; rating 3 1 false]
             [source 7 12 "b"; source 0 5 "a"]] 0.

End Samples.

Definition calls_made (self : GenerateContentResponse) : nat :=
  match _iterator self with
  | Some it => calls it
  | None => 0
  end.

(** ** Views of the merger used by the proofs *)

(** What the loop over [parts] leaves when it starts with [cur] as the last
    merged part. *)
Fixpoint merge_from (cur : glm.Part) (parts : list glm.Part) : list glm.Part :=
  match parts with
  | [] => [cur]
  | part :: parts =>
      if falsy (glm.text cur) || falsy (glm.text part)
      then cur :: merge_from part parts
      else merge_from
             (glm.Part_text (String.append (glm.text cur) (glm.text part)))
             parts
  end.

(** No two parts in a row both carry a text. *)
Fixpoint separated (parts : list glm.Part) : bool :=
  match parts with
  | a :: (b :: _) as rest =>
      (falsy (glm.text a) || falsy (glm.text b)) && separated rest
  | _ => true
  end.


(** The safety list the two dictionaries of [_join_safety_ratings_lists]
    give: its last two statements. *)
Definition rated (st : PyDict.dict Z * PyDict.dict (list bool))
    : list glm.SafetyRating :=
  let (ratings, blocked) := st in
  let blocked :=
    map (fun kv : Z * list bool => (fst kv, existsb (fun b => b) (snd kv)))
        (PyDict.items blocked) in
  map (fun z : (Z * Z) * bool =>
         {| glm.category := fst (fst z);
            glm.probability := snd (fst z);
            glm.blocked := snd z |})
      (combine (PyDict.items ratings) (PyDict.values blocked)).

(** One more rating, seen on the safety list. *)
Fixpoint absorb (out : list glm.SafetyRating) (rating : glm.SafetyRating)
    : list glm.SafetyRating :=
  match out with
  | [] => [rating]
  | o :: out' =>
      if Z.eqb (glm.category o) (glm.category rating)
      then {| glm.category := glm.category o;
              glm.probability := glm.probability rating;
              glm.blocked := glm.blocked o || glm.blocked rating |} :: out'
      else o :: absorb out' rating
  end.

(** [out] is the summary, category by category, of the ratings [seen]: one
    rating for each category seen, with the probability of the last rating
    seen for it and the disjunction of the blocked flags seen for it. *)
Definition summarises (out seen : list glm.SafetyRating) : Prop :=
  NoDup (map glm.category out) /\
  (forall c, In c (map glm.category out) <-> In c (map glm.category seen)) /\
  forall o, In o out ->
    (exists before x after,
       seen = before ++ x :: after /\
       glm.category x = glm.category o /\
       glm.probability x = glm.probability o /\
       forall y, In y after -> glm.category y <> glm.category o) /\
    (glm.blocked o = true <->
     exists x, In x seen /\ glm.category x = glm.category o /\
               glm.blocked x = true).

(** [candidate.index == k] *)
Definition has_index (k : Z) (candidate : glm.Candidate) : bool :=
  Z.eqb (glm.index candidate) k.

(** The dictionary [candidates] of [_join_candidate_lists] after the
    candidates [all] have been filed, in arrival order. *)
Definition grouped (all : list glm.Candidate) : PyDict.dict (list glm.Candidate) :=
  fold_left (fun d candidate =>
               PyDict.append_item d (glm.index candidate) candidate)
            all [].

(** The indices under which [_join_candidate_lists] joins, in its order. *)
Definition indices (all : list glm.Candidate) : list Z :=
  map fst (PyDict.sorted (PyDict.items (grouped all))).

Definition key_le {V} (a b : Z * V) : Prop := (fst a <= fst b)%Z.

(** A consumer that takes [k] snapshots from the generator and then leaves
    it suspended: the snapshots taken, the accumulator as the last yield
    left it, and how the generator stopped if it did before the [k]-th
    yield. *)
Fixpoint consume (k : nat) (self : GenerateContentResponse) (n : nat)
    : list GenerateContentResponse * GenerateContentResponse * option stop :=
  match k with
  | O => ([], self, None)
  | S k =>
      match loop_turn self n with
      | Stop s self => ([], self, Some s)
      | Yield item self =>
          let '(items, self, stopped) := consume k self (S n) in
          (item :: items, self, stopped)
      end
  end.

(** All the text of some parts, in order. *)
Definition joined_text (parts : list glm.Part) : string :=
  fold_right (fun part s => String.append (glm.text part) s) EmptyString parts.

(** The parts that carry no text: blobs, unset parts, empty texts. *)
Definition textless (parts : list glm.Part) : list glm.Part :=
  filter (fun part => falsy (glm.text part)) parts.

(** Snapshots taken before the ones a consumer takes next. *)
Definition taken_before (ys : list GenerateContentResponse)
    (c : list GenerateContentResponse * GenerateContentResponse * option stop)
    : list GenerateContentResponse * GenerateContentResponse * option stop :=
  let '(items, self, stopped) := c in (ys ++ items, self, stopped).

(** ** Renaming the keys of an upload result ([client.py])

    [re.sub("[A-Z]", lambda ch: f"_{ch.group(0).lower()}", key)] in
    [FileServiceClient.upload_file]. A key is taken as its UTF-8 bytes:
    [[A-Z]] matches the ASCII capitals only, and no byte of a character
    outside ASCII is one of them. *)

Module client.

Definition is_capital (ch : Ascii.ascii) : bool :=
  Nat.leb 65 (Ascii.nat_of_ascii ch) && Nat.leb (Ascii.nat_of_ascii ch) 90.

(** [ch.lower()] for a character [[A-Z]] matched *)
Definition lower (ch : Ascii.ascii) : Ascii.ascii :=
  Ascii.ascii_of_nat (Ascii.nat_of_ascii ch + 32).

Fixpoint snake_key (key : string) : string :=
  match key with
  | EmptyString => EmptyString
  | String ch rest =>
      if is_capital ch
      then String "_"%char (String (lower ch) (snake_key rest))
      else String ch (snake_key rest)
  end.

Fixpoint capitals (key : string) : nat :=
  match key with
  | EmptyString => 0
  | String ch rest => (if is_capital ch then 1 else 0) + capitals rest
  end.

End client.

(** No character of the key is an ASCII capital. *)
Fixpoint no_capital (key : string) : Prop :=
  match key with
  | EmptyString => True
  | String ch rest => client.is_capital ch = false /\ no_capital rest
  end.


(** ** When the joins return *)

(** The candidates of all the chunks, in arrival order. *)
Definition all_candidates (chunks : list glm.GenerateContentResponse)
    : list glm.Candidate :=
  concat (map glm.candidates chunks).

(** The candidate's content has a part. *)
Definition has_part (candidate : glm.Candidate) : bool :=
  match glm.parts (glm.content candidate) with
  | [] => false
  | _ :: _ => true
  end.

(** The candidates of one index all speak in one role. *)
Definition one_role_per_index (all : list glm.Candidate) : bool :=
  forallb (fun x =>
             forallb (fun y =>
                        implb (has_index (glm.index x) y)
                              (String.eqb (glm.role (glm.content y))
                                          (glm.role (glm.content x))))
                     all)
          all.

(** Every index that occurs has a candidate whose content has a part. *)
Definition a_part_per_index (all : list glm.Candidate) : bool :=
  forallb (fun x =>
             existsb (fun y => has_index (glm.index x) y && has_part y) all)
          all.


Unset Implicit Arguments.

(** * Properties of the accumulator *)

(** ** Runs of the generator *)

Lemma prepend_nil r : prepend [] r = r.
Proof. destruct r as [[ys h s]|]; reflexivity. Qed.

Lemma prepend_app ys zs r : prepend (ys ++ zs) r = prepend ys (prepend zs r).
Proof. destruct r as [[us h s]|]; simpl; [rewrite app_assoc|]; reflexivity. Qed.

Lemma loop_yield fuel self n item self' :
  loop_turn self n = Yield item self' ->
  loop (S fuel) self n = prepend [item] (loop fuel self' (S n)).
Proof.
  intros H. simpl. rewrite H. destruct (loop fuel self' (S n)); reflexivity.
Qed.

Lemma loop_stop fuel self n s self' :
  loop_turn self n = Stop s self' ->
  loop (S fuel) self n =
  Some {| yielded := []; how := s; self_after := self' |}.
Proof. intros H. simpl. rewrite H. reflexivity. Qed.

Lemma accumulate_cons first item rest :
  accumulate first (item :: rest) =
  (joined <- _join_chunks [first; item] ;; accumulate joined rest).
Proof.
  unfold accumulate. simpl.
  destruct (_join_chunks [first; item]) as [j|e]; simpl; [reflexivity|].
  induction rest as [|x rest IH]; simpl; auto.
Qed.

Lemma nth_error_snoc {A} (front : list A) (c : A) (more : list A) :
  nth_error ((front ++ [c]) ++ more) (length front) = Some c.
Proof.
  rewrite <- app_assoc. rewrite nth_error_app2 by lia.
  rewrite Nat.sub_diag. reflexivity.
Qed.

Lemma turn_pull_item front c result item joined future k :
  _join_chunks [result; item] = Ok joined ->
  loop_turn (pending_state (front ++ [c]) result (Ok item :: future) k)
            (length front)
  = Yield (from_response c)
          (pending_state ((front ++ [c]) ++ [item]) joined future (S k)).
Proof.
  intros Hj. unfold loop_turn, error_to_raise, pending_state; simpl.
  replace (length (front ++ [c]) <=? length front + 1) with true
    by (symmetry; apply Nat.leb_le; rewrite length_app; simpl; lia).
  unfold look_ahead, pull, next; simpl. rewrite Hj. simpl.
  rewrite nth_error_snoc. reflexivity.
Qed.

Lemma turn_pull_join_raises front c result item e future k :
  _join_chunks [result; item] = Raise e ->
  loop_turn (pending_state (front ++ [c]) result (Ok item :: future) k)
            (length front)
  = Stop (Raised e)
         (pending_state ((front ++ [c]) ++ [item]) result future (S k)).
Proof.
  intros Hj. unfold loop_turn, error_to_raise, pending_state; simpl.
  replace (length (front ++ [c]) <=? length front + 1) with true
    by (symmetry; apply Nat.leb_le; rewrite length_app; simpl; lia).
  unfold look_ahead, pull, next; simpl. rewrite Hj. reflexivity.
Qed.

Lemma turn_pull_exhausted front c result k :
  loop_turn (pending_state (front ++ [c]) result [] k) (length front)
  = Yield (from_response c) (final_state (front ++ [c]) result [] (S k) None).
Proof.
  unfold loop_turn, error_to_raise, pending_state; simpl.
  replace (length (front ++ [c]) <=? length front + 1) with true
    by (symmetry; apply Nat.leb_le; rewrite length_app; simpl; lia).
  unfold look_ahead, pull, next; simpl.
  rewrite <- (app_nil_r (front ++ [c])). rewrite nth_error_snoc. reflexivity.
Qed.


Lemma turn_after_end chunks result future k :
  loop_turn (final_state chunks result future k None) (length chunks)
  = Stop Returned (final_state chunks result future k None).
Proof.
  unfold loop_turn, error_to_raise, final_state; simpl.
  replace (length chunks <=? length chunks + 1) with true
    by (symmetry; apply Nat.leb_le; lia).
  reflexivity.
Qed.



(** The turns that pull the items [items] one after the other, every join
    succeeding: each yields the chunk before the one it pulls. *)
Lemma loop_items items : forall front c res res' future k fuel,
  accumulate res items = Ok res' ->
  exists ys c',
    c :: items = ys ++ [c'] /\
    loop (length items + fuel)
         (pending_state (front ++ [c]) res (map Ok items ++ future) k)
         (length front)
    = prepend (map from_response ys)
        (loop fuel
           (pending_state ((front ++ ys) ++ [c']) res' future (length items + k))
           (length (front ++ ys))).
Proof.
  induction items as [|item items IH]; intros front c res res' future k fuel Hacc.
  - exists [], c. split; [reflexivity|]. simpl.
    unfold accumulate in Hacc; simpl in Hacc; injection Hacc as <-.
    rewrite app_nil_r, prepend_nil. reflexivity.
  - rewrite accumulate_cons in Hacc.
    destruct (_join_chunks [res; item]) as [joined|e] eqn:Hj; [|discriminate].
    simpl in Hacc.
    destruct (IH (front ++ [c]) item joined res' future (S k) fuel Hacc)
      as (ys & c' & Hsplit & Hloop).
    exists (c :: ys), c'. split; [simpl; rewrite Hsplit; reflexivity|].
    change (length (item :: items) + fuel) with (S (length items + fuel)).
    change (map Ok (item :: items) ++ future)
      with (Ok item :: (map Ok items ++ future)).
    rewrite (loop_yield _ _ _ _ _ (turn_pull_item front c res item joined _ k Hj)).
    replace (S (length front)) with (length (front ++ [c]))
      by (rewrite length_app; simpl; lia).
    rewrite Hloop.
    replace (length items + S k) with (length (item :: items) + k)
      by (simpl; lia).
    replace ((front ++ [c]) ++ ys) with (front ++ c :: ys)
      by (rewrite <- app_assoc; reflexivity).
    change (map from_response (c :: ys))
      with ([from_response c] ++ map from_response ys).
    rewrite prepend_app. reflexivity.
Qed.

(** A join that raises ends the run there, with that exception. *)
Lemma loop_items_raise items : forall front c res e future k fuel,
  accumulate res items = Raise e ->
  length items <= fuel ->
  exists r,
    loop fuel (pending_state (front ++ [c]) res (map Ok items ++ future) k)
         (length front) = Some r /\
    how r = Raised e.
Proof.
  induction items as [|item items IH]; intros front c res e future k fuel Hacc Hf.
  - discriminate.
  - rewrite accumulate_cons in Hacc.
    destruct fuel as [|fuel]; [simpl in Hf; lia|].
    change (map Ok (item :: items) ++ future)
      with (Ok item :: (map Ok items ++ future)).
    destruct (_join_chunks [res; item]) as [joined|e'] eqn:Hj; simpl in Hacc.
    + rewrite (loop_yield _ _ _ _ _ (turn_pull_item front c res item joined _ k Hj)).
      replace (S (length front)) with (length (front ++ [c]))
        by (rewrite length_app; simpl; lia).
      destruct (IH (front ++ [c]) item joined e future (S k) fuel Hacc)
        as (r & Hr & Hhow); [simpl in Hf; lia|].
      rewrite Hr. simpl. eexists; split; [reflexivity|exact Hhow].
    + injection Hacc as <-.
      rewrite (loop_stop _ _ _ _ _ (turn_pull_join_raises front c res item e' _ k Hj)).
      eexists; split; reflexivity.
Qed.

(** A whole run over a producer that gives [items] and then ends. *)
Lemma run_to_end items front c res res' k fuel :
  accumulate res items = Ok res' ->
  loop (length items + (2 + fuel))
       (pending_state (front ++ [c]) res (map Ok items) k) (length front)
  = Some {| yielded := map from_response (c :: items);
            how := Returned;
            self_after :=
              final_state (front ++ c :: items) res' [] (S (length items + k))
                          None |}.
Proof.
  intros Hacc.
  destruct (loop_items items front c res res' [] k (2 + fuel) Hacc)
    as (ys & c' & Hsplit & Hloop).
  rewrite app_nil_r in Hloop. rewrite Hloop.
  change (2 + fuel) with (S (S fuel)).
  rewrite (loop_yield _ _ _ _ _ (turn_pull_exhausted (front ++ ys) c' res' _)).
  replace (S (length (front ++ ys))) with (length ((front ++ ys) ++ [c']))
    by (rewrite (length_app (front ++ ys)); simpl; lia).
  rewrite (loop_stop _ _ _ _ _ (turn_after_end _ _ _ _)). simpl.
  change (from_response c :: map from_response items)
    with (map from_response (c :: items)).
  rewrite Hsplit, map_app, <- app_assoc. reflexivity.
Qed.


Lemma from_iterator_item response future k :
  from_iterator {| pending := Ok response :: future; calls := k |}
  = (Ok (__init__ false (Some {| pending := future; calls := S k |})
                  response [response]),
     {| pending := future; calls := S k |}).
Proof. reflexivity. Qed.

Lemma init_not_blocked response future k :
  glm.block_reason (glm.prompt_feedback response) = 0%Z ->
  __init__ false (Some {| pending := future; calls := k |}) response [response]
  = pending_state [response] response future k.
Proof. intros H. unfold __init__, pending_state. rewrite H. reflexivity. Qed.

Lemma init_blocked done it response chunks :
  glm.block_reason (glm.prompt_feedback response) <> 0%Z ->
  _error (__init__ done it response chunks)
  = Some (BlockedPromptException response).
Proof.
  intros H. unfold __init__; simpl.
  destruct (Z.eqb_spec (glm.block_reason (glm.prompt_feedback response)) 0);
    [contradiction|reflexivity].
Qed.

(** Iterating a pending accumulator with a latched error raises it at once
    and leaves the accumulator as it was. *)
Lemma iter_latched self c chunks e :
  _done self = false ->
  _chunks self = c :: chunks ->
  _error self = Some e ->
  truthy e = true ->
  __iter__ self = Some {| yielded := []; how := Raised e; self_after := self |}.
Proof.
  intros Hd Hc He Ht. unfold __iter__. rewrite Hd, Hc.
  unfold turns_left. rewrite Nat.add_comm. simpl.
  unfold loop_turn, error_to_raise. rewrite He, Ht. reflexivity.
Qed.

(** ** The generator always stops *)

Lemma loop_turn_yield self n item self' :
  loop_turn self n = Yield item self' ->
  n < length (_chunks self') /\ reach self' <= reach self.
Proof.
  unfold loop_turn, look_ahead, pull, next, reach.
  destruct self as [d it res cs err].
  destruct (error_to_raise _); [discriminate|]. simpl.
  destruct (length cs <=? n + 1).
  - destruct d; [discriminate|].
    destruct it as [[p k]|]; simpl.
    + destruct p as [|[item'|e] p]; simpl.
      * yield_in_buffer cs n.
      * destruct (_join_chunks [res; item']); simpl; [|discriminate].
        yield_in_buffer (cs ++ [item']) n.
      * destruct (is_StopIteration e); simpl; [yield_in_buffer cs n|].
        destruct (is_Exception e); simpl; [|discriminate].
        yield_in_buffer cs n.
    + yield_in_buffer cs n.
  - simpl. yield_in_buffer cs n.
Qed.

Lemma loop_total fuel : forall self n,
  n <= reach self ->
  reach self + 1 <= fuel + n ->
  exists r, loop fuel self n = Some r.
Proof.
  induction fuel as [|fuel IH]; intros self n Hn Hf; [lia|].
  simpl. destruct (loop_turn self n) as [item self'|s self'] eqn:Ht.
  - apply loop_turn_yield in Ht as [Hlt Hle].
    destruct (IH self' (S n)) as [r Hr].
    + unfold reach at 1. lia.
    + lia.
    + rewrite Hr. eexists; reflexivity.
  - eexists; reflexivity.
Qed.

Lemma reach_turns_left self : reach self + 1 <= turns_left self + 0.
Proof.
  unfold reach, turns_left. destruct (_done self), (_iterator self); lia.
Qed.

(** [__iter__] runs to a stop from every state of the accumulator. *)
Lemma iter_total self : exists r, __iter__ self = Some r.
Proof.
  unfold __iter__. destruct (_done self); [eexists; reflexivity|].
  destruct (_chunks self) eqn:Hc.
  - destruct (pull self) as [[item|e] self'].
    + apply loop_total; [lia|apply reach_turns_left].
    + eexists; reflexivity.
  - apply loop_total; [lia|apply reach_turns_left].
Qed.

Lemma resolve_total self : exists r, resolve self = Some r.
Proof.
  unfold resolve. destruct (_done self); [eexists; reflexivity|].
  destruct (iter_total self) as [r ->]. eexists; reflexivity.
Qed.

(** ** Quick accessors *)

(** C8 (as the code has it): once the accumulator is done, [parts] raises
    exactly when the accumulated result does not hold one candidate (none, or
    more than one), and the error is a [ValueError]; with a sole candidate it
    returns that candidate's parts, whatever their number. *)
Theorem parts_of_done_accumulator (self : GenerateContentResponse) :
  _done self = true ->
  (forall e, parts self = Raise e ->
     e = ValueError /\ length (glm.candidates (_result self)) <> 1) /\
  (length (glm.candidates (_result self)) <> 1 -> parts self = Raise ValueError) /\
  (forall c, glm.candidates (_result self) = [c] ->
     parts self = Ok (glm.parts (glm.content c))).
Proof.
  intros Hd. unfold parts, candidates. rewrite Hd. simpl.
  destruct (glm.candidates (_result self)) as [|c0 [|c1 cs]]; simpl.
  - repeat split.
    + injection H as <-; reflexivity.
    + lia.
    + discriminate.
  - repeat split; try discriminate.
    + intros H; contradiction H; reflexivity.
    + intros c H; injection H as <-; reflexivity.
  - repeat split.
    + injection H as <-; reflexivity.
    + lia.
    + discriminate.
Qed.

Lemma parts_of_done_accumulator_witness :
  _done (from_response Samples.hello) = true /\
  parts (from_response Samples.hello) = Ok [glm.Part_text "Hello, "].
Proof.
  split; [reflexivity|].
  exact (proj2 (proj2 (parts_of_done_accumulator
                         (from_response Samples.hello) eq_refl))
               _ eq_refl).
Defined.

(** C8, counterexample: a done accumulator whose sole candidate has no part;
    [parts] returns the empty list, it does not raise. *)
Lemma parts_returns_empty_part_list :
  _done (from_response Samples.bare) = true /\
  (exists c, glm.candidates (_result (from_response Samples.bare)) = [c] /\
             glm.parts (glm.content c) = []) /\
  parts (from_response Samples.bare) = Ok [] /\
  ~ (exists e, parts (from_response Samples.bare) = Raise e).
Proof.
  split; [reflexivity|]. split; [eexists; split; reflexivity|].
  split; [reflexivity|]. intros [e H]; discriminate H.
Qed.

(** ** Construction *)

(** C9 (as the code has it): [from_iterator] calls [next] once. When the
    call gives an item, the accumulator returned is pending, holds the rest
    of the producer, and has the item as its buffer and its result, with a
    [BlockedPromptException] latched when the item's block reason is not
    zero; when the call raises (exhaustion or failure), [from_iterator]
    raises the same exception and returns no accumulator. *)
Theorem from_iterator_first_pull (iterator : Iterator) :
  calls (snd (from_iterator iterator)) = S (calls iterator) /\
  match pending iterator with
  | Ok response :: rest =>
      fst (from_iterator iterator)
      = Ok {| _done := false;
              _iterator := Some {| pending := rest; calls := S (calls iterator) |};
              _result := response;
              _chunks := [response];
              _error :=
                if Z.eqb (glm.block_reason (glm.prompt_feedback response)) 0
                then None
                else Some (BlockedPromptException response) |}
  | Raise e :: _ => fst (from_iterator iterator) = Raise e
  | [] => fst (from_iterator iterator) = Raise StopIteration
  end.
Proof.
  destruct iterator as [[|[response|e] rest] k]; split; reflexivity.
Qed.

(** C9, counterexample: on a producer that has nothing to give, and on one
    whose first pull fails, [from_iterator] raises and no accumulator comes
    back. *)
Lemma from_iterator_propagates_first_pull :
  fst (from_iterator (iter [])) = Raise StopIteration /\
  fst (from_iterator {| pending := [Raise (TransportError "unavailable")];
                        calls := 0 |})
  = Raise (TransportError "unavailable") /\
  ~ (exists acc, fst (from_iterator (iter [])) = Ok acc).
Proof.
  split; [reflexivity|]. split; [reflexivity|].
  intros [acc H]; discriminate H.
Qed.

(** ** Blocked prompts *)

(** C6 (as the code has it): an accumulator built by [from_iterator] whose
    first message has a nonzero block reason latches a
    [BlockedPromptException]; iterating it, or resolving it, raises that
    exception before anything is yielded or pulled and leaves the
    accumulator as it was, so every later attempt does the same;
    [prompt_feedback] returns the feedback of that message. *)
Theorem blocked_prompt_while_pending
    (response : glm.GenerateContentResponse)
    (future : list (result glm.GenerateContentResponse)) (k : nat)
    (acc : GenerateContentResponse) :
  glm.block_reason (glm.prompt_feedback response) <> 0%Z ->
  fst (from_iterator {| pending := Ok response :: future; calls := k |}) = Ok acc ->
  _error acc = Some (BlockedPromptException response) /\
  __iter__ acc
  = Some {| yielded := [];
            how := Raised (BlockedPromptException response);
            self_after := acc |} /\
  resolve acc = Some (Raised (BlockedPromptException response), acc) /\
  prompt_feedback acc = glm.prompt_feedback response.
Proof.
  intros Hb Hacc. rewrite from_iterator_item in Hacc. simpl in Hacc.
  injection Hacc as <-.
  assert (He := init_blocked false
                  (Some {| pending := future; calls := S k |})
                  response [response] Hb).
  assert (Hi := iter_latched
                  (__init__ false (Some {| pending := future; calls := S k |})
                            response [response])
                  response [] _ eq_refl eq_refl He eq_refl).
  repeat split; try assumption.
  unfold resolve. rewrite Hi. reflexivity.
Qed.

Lemma blocked_prompt_while_pending_witness :
  exists acc,
    fst (from_iterator (iter [Samples.refused])) = Ok acc /\
    __iter__ acc
    = Some {| yielded := [];
              how := Raised (BlockedPromptException Samples.refused);
              self_after := acc |} /\
    resolve acc = Some (Raised (BlockedPromptException Samples.refused), acc) /\
    prompt_feedback acc = glm.prompt_feedback Samples.refused.
Proof.
  eexists. split; [reflexivity|].
  assert (H : glm.block_reason (glm.prompt_feedback Samples.refused) <> 0%Z)
    by discriminate.
  exact (proj2 (blocked_prompt_while_pending Samples.refused [] 0 _ H eq_refl)).
Defined.

(** C6, counterexample: the accumulator [from_response] builds from a
    refused prompt has the exception latched too, yet iterating it yields
    its chunk and returns. *)
Lemma blocked_complete_response_iterates :
  glm.block_reason (glm.prompt_feedback Samples.refused) <> 0%Z /\
  _error (from_response Samples.refused)
  = Some (BlockedPromptException Samples.refused) /\
  __iter__ (from_response Samples.refused)
  = Some {| yielded := [from_response Samples.refused];
            how := Returned;
            self_after := from_response Samples.refused |}.
Proof.
  split; [simpl; lia|]. split; reflexivity.
Qed.

(** ** Replay *)

Lemma iter_pending_first response res future k :
  __iter__ (pending_state [response] res future k)
  = loop (length future + 3) (pending_state [response] res future k) 0.
Proof.
  unfold __iter__, turns_left. cbn -[loop Nat.add].
  f_equal. lia.
Qed.

Lemma iter_final chunks res future k error :
  __iter__ (final_state chunks res future k error)
  = Some {| yielded := map from_response chunks;
            how := Returned;
            self_after := final_state chunks res future k error |}.
Proof. reflexivity. Qed.

(** The same runs, as [__iter__] starts them on a freshly built
    accumulator. *)
Lemma first_pass_to_end items c res res' k :
  accumulate res items = Ok res' ->
  __iter__ (pending_state [c] res (map Ok items) k)
  = Some {| yielded := map from_response (c :: items);
            how := Returned;
            self_after :=
              final_state (c :: items) res' [] (S (length items + k)) None |}.
Proof.
  intros Ha. rewrite iter_pending_first, length_map.
  exact (run_to_end items [] c res res' k 1 Ha).
Qed.


Lemma first_pass_join_raises items c res e k :
  accumulate res items = Raise e ->
  exists r,
    __iter__ (pending_state [c] res (map Ok items) k) = Some r /\
    how r = Raised e.
Proof.
  intros Ha. rewrite iter_pending_first, length_map.
  rewrite <- (app_nil_r (map Ok items)).
  apply (loop_items_raise items [] c res e [] k _ Ha). lia.
Qed.

(** C5 (as the code has it): for an accumulator built by [from_iterator]
    from a finite producer that never fails, if a first full pass of
    [__iter__] returns (it raises when the prompt is blocked or when a join
    raises), it has yielded one snapshot per item of the producer, in
    order; a second full pass yields the same snapshots, returns, and
    leaves the accumulator untouched, so it pulls nothing: [next] has been
    called once per item and once more to find the end. *)
Theorem replay_after_complete_pass
    (first : glm.GenerateContentResponse)
    (rest : list glm.GenerateContentResponse)
    (acc : GenerateContentResponse) (pass1 : run) :
  fst (from_iterator (iter (first :: rest))) = Ok acc ->
  __iter__ acc = Some pass1 ->
  how pass1 = Returned ->
  yielded pass1 = map from_response (first :: rest) /\
  __iter__ (self_after pass1)
  = Some {| yielded := yielded pass1;
            how := Returned;
            self_after := self_after pass1 |} /\
  calls_made (self_after pass1) = S (length (first :: rest)).
Proof.
  intros Hacc Hrun Hhow.
  unfold iter in Hacc. simpl map in Hacc.
  rewrite from_iterator_item in Hacc. simpl in Hacc. injection Hacc as <-.
  destruct (Z.eq_dec (glm.block_reason (glm.prompt_feedback first)) 0)
    as [Hz|Hnz].
  - rewrite (init_not_blocked _ _ _ Hz) in Hrun.
    destruct (accumulate first rest) as [res'|e] eqn:Ha.
    + rewrite (first_pass_to_end rest first first res' 1 Ha) in Hrun.
      injection Hrun as <-.
      split; [reflexivity|]. split; [reflexivity|].
      unfold calls_made; simpl. lia.
    + destruct (first_pass_join_raises rest first first e 1 Ha)
        as (r & Hr & Hraised).
      rewrite Hr in Hrun. injection Hrun as <-.
      rewrite Hraised in Hhow. discriminate.
  - assert (He := init_blocked false
                    (Some {| pending := map Ok rest; calls := 1 |})
                    first [first] Hnz).
    rewrite (iter_latched
               (__init__ false (Some {| pending := map Ok rest; calls := 1 |})
                         first [first])
               first [] _ eq_refl eq_refl He eq_refl) in Hrun.
    injection Hrun as <-. discriminate.
Qed.

Lemma replay_after_complete_pass_witness :
  exists acc pass1,
    fst (from_iterator (iter [Samples.hello; Samples.world])) = Ok acc /\
    __iter__ acc = Some pass1 /\
    yielded pass1 = map from_response [Samples.hello; Samples.world] /\
    __iter__ (self_after pass1)
    = Some {| yielded := yielded pass1;
              how := Returned;
              self_after := self_after pass1 |} /\
    calls_made (self_after pass1) = 3.
Proof.
  eexists. eexists.
  split; [reflexivity|]. split; [reflexivity|].
  exact (replay_after_complete_pass Samples.hello [Samples.world] _ _
           eq_refl eq_refl eq_refl).
Defined.

(** C5, counterexample: two producers that never fail. On the first, the
    second chunk's candidate changes role and the join asserts; on the
    second, the candidate of both chunks has no part and the join finds no
    first part. Either way the first pass raises before it yields, the
    second pass yields both chunks, and the second pass pulls the producer
    once more. *)
Lemma replay_differs_after_failed_join :
  (exists acc pass1 pass2,
     fst (from_iterator (iter [Samples.hello; Samples.stray])) = Ok acc /\
     __iter__ acc = Some pass1 /\
     __iter__ (self_after pass1) = Some pass2 /\
     yielded pass1 = [] /\ how pass1 = Raised AssertionError /\
     yielded pass2 = map from_response [Samples.hello; Samples.stray] /\
     how pass2 = Returned /\
     yielded pass1 <> yielded pass2 /\
     calls_made (self_after pass1) = 2 /\
     calls_made (self_after pass2) = 3) /\
  (exists acc pass1 pass2,
     fst (from_iterator (iter [Samples.bare; Samples.bare])) = Ok acc /\
     __iter__ acc = Some pass1 /\
     __iter__ (self_after pass1) = Some pass2 /\
     yielded pass1 = [] /\ how pass1 = Raised IndexError /\
     yielded pass2 = map from_response [Samples.bare; Samples.bare] /\
     how pass2 = Returned /\
     yielded pass1 <> yielded pass2 /\
     calls_made (self_after pass1) = 2 /\
     calls_made (self_after pass2) = 3).
Proof.
  split; eexists; eexists; eexists.
  all: split; [reflexivity|]; split; [reflexivity|]; split; [reflexivity|].
  all: repeat split; discriminate.
Qed.

(** ** Upstream failures *)




(** A failure whose instance is falsy is stored and never raised: the pass
    that met it yields the buffered chunks and returns. *)
Lemma silent_failure_is_never_raised :
  exists acc pass1,
    fst (from_iterator
           {| pending := [Ok Samples.hello; Ok Samples.world;
                          Raise (SilentError "reset")];
              calls := 0 |}) = Ok acc /\
    __iter__ acc = Some pass1 /\
    yielded pass1 = map from_response [Samples.hello; Samples.world] /\
    how pass1 = Returned /\
    _done (self_after pass1) = true /\
    _error (self_after pass1) = Some (SilentError "reset").
Proof.
  eexists. eexists.
  split; [reflexivity|]. split; [reflexivity|]. repeat split.
Qed.


(** * Properties of the merger *)

(** ** Parts *)

Lemma fold_left_extend {A B} (f : A -> list B) (l : list A) (acc : list B) :
  fold_left (fun acc x => acc ++ f x) l acc = acc ++ concat (map f l).
Proof.
  revert acc. induction l as [|x l IH]; intros acc; simpl.
  - rewrite app_nil_r. reflexivity.
  - rewrite IH, app_assoc. reflexivity.
Qed.

Lemma all_parts_concat contents :
  all_parts contents = concat (map glm.parts contents).
Proof. unfold all_parts. rewrite fold_left_extend. reflexivity. Qed.

Lemma falsy_empty s : falsy s = true <-> s = EmptyString.
Proof. destruct s; simpl; split; congruence. Qed.

Lemma falsy_append s t :
  falsy (String.append s t) = falsy s && falsy t.
Proof. destruct s; simpl; [destruct t|]; reflexivity. Qed.

Lemma append_assoc (s t u : string) :
  String.append (String.append s t) u = String.append s (String.append t u).
Proof. induction s as [|a s IH]; simpl; [|rewrite IH]; reflexivity. Qed.

(** The loop and its recursive view agree. *)
Lemma merge_part_loop parts : forall front cur,
  (let (f, c) := fold_left merge_part parts (front, cur) in f ++ [c])
  = front ++ merge_from cur parts.
Proof.
  induction parts as [|p parts IH]; intros front cur; simpl.
  - reflexivity.
  - destruct (falsy (glm.text cur)); simpl.
    + rewrite IH, <- app_assoc. reflexivity.
    + destruct (falsy (glm.text p)); simpl.
      * rewrite IH, <- app_assoc. reflexivity.
      * apply IH.
Qed.

Lemma merge_parts_cons p parts :
  merge_parts (p :: parts) = Ok (merge_from p parts).
Proof.
  unfold merge_parts. generalize (merge_part_loop parts [] p).
  destruct (fold_left merge_part parts ([], p)) as [f c]. simpl.
  intros ->. reflexivity.
Qed.

(** The merged parts start with a part that carries a text exactly when the
    first part does; when it does its text starts with the first part's. *)
Lemma merge_from_head parts : forall cur,
  exists h t,
    merge_from cur parts = h :: t /\
    falsy (glm.text h) = falsy (glm.text cur) /\
    (falsy (glm.text cur) = true -> h = cur) /\
    (exists more, glm.text h = String.append (glm.text cur) more) /\
    (parts = [] -> h = cur).
Proof.
  induction parts as [|p parts IH]; intros cur; simpl.
  - exists cur, []. repeat split; auto.
    exists EmptyString. clear. induction (glm.text cur) as [|a s IHs]; simpl;
      [|rewrite <- IHs]; reflexivity.
  - destruct (falsy (glm.text cur)) eqn:Hc; simpl.
    + exists cur, (merge_from p parts). repeat split; auto; try discriminate.
      exists EmptyString. apply falsy_empty in Hc. rewrite Hc. reflexivity.
    + destruct (falsy (glm.text p)) eqn:Hp; simpl.
      * exists cur, (merge_from p parts). repeat split; auto; try discriminate.
        exists EmptyString. clear.
        induction (glm.text cur) as [|a s IHs]; simpl;
          [|rewrite <- IHs]; reflexivity.
      * destruct (IH (glm.Part_text (String.append (glm.text cur) (glm.text p))))
          as (h & t & Hm & Hf & _ & (more & Hmore) & _).
        exists h, t. simpl in Hf, Hmore. repeat split; auto; try discriminate.
        -- rewrite Hf, falsy_append, Hc. reflexivity.
        -- exists (String.append (glm.text p) more).
           rewrite Hmore, append_assoc. reflexivity.
Qed.

Lemma merge_from_separated parts : forall cur,
  separated (merge_from cur parts) = true.
Proof.
  induction parts as [|p parts IH]; intros cur; simpl; [reflexivity|].
  destruct (falsy (glm.text cur) || falsy (glm.text p)) eqn:Hb; [|apply IH].
  destruct (merge_from_head parts p) as (h & t & Hm & Hf & _).
  specialize (IH p). rewrite Hm in *.
  change (separated (cur :: h :: t))
    with ((falsy (glm.text cur) || falsy (glm.text h)) && separated (h :: t)).
  rewrite Hf, Hb, IH. reflexivity.
Qed.

Lemma last_cons {A} (l : list A) : forall (a d : A),
  last (a :: l) d = last l a.
Proof.
  induction l as [|b l IH]; intros a d; [reflexivity|].
  change (last (a :: b :: l) d) with (last (b :: l) d).
  rewrite IH. symmetry. apply IH.
Qed.

(** State of the loop after the parts [parts]: the merged parts are split
    into all but the last and the last, and the loop goes on from there. *)
Lemma merge_from_app parts : forall cur,
  exists front last_part,
    merge_from cur parts = front ++ [last_part] /\
    falsy (glm.text last_part) = falsy (glm.text (last parts cur)) /\
    (falsy (glm.text (last parts cur)) = true -> last_part = last parts cur) /\
    (exists before, glm.text last_part
                    = String.append before (glm.text (last parts cur))) /\
    (parts = [] -> last_part = cur) /\
    forall more, merge_from cur (parts ++ more)
                 = front ++ merge_from last_part more.
Proof.
  induction parts as [|p parts IH]; intros cur.
  - exists [], cur. simpl. repeat split; auto. exists EmptyString. reflexivity.
  - assert (Hlast := last_cons parts p).
    rewrite Hlast. simpl merge_from.
    destruct (falsy (glm.text cur) || falsy (glm.text p)) eqn:Hb.
    + destruct (IH p) as (front & lp & Hm & Hf & Hsame & Hbefore & Hnil & Happ).
      exists (cur :: front), lp. rewrite Hm.
      repeat split; auto; try discriminate.
      intros more. simpl. rewrite ?Hb, Happ. reflexivity.
    + apply orb_false_iff in Hb as [Hc Hp].
      destruct (IH (glm.Part_text (String.append (glm.text cur) (glm.text p))))
        as (front & lp & Hm & Hf & Hsame & (before & Hbefore) & Hnil & Happ).
      exists front, lp. rewrite Hm.
      destruct parts as [|q parts].
      * specialize (Hnil eq_refl). subst lp. simpl in *.
        split; [reflexivity|].
        split; [rewrite falsy_append, Hc, Hp; reflexivity|].
        split; [rewrite Hp; discriminate|].
        split; [exists (glm.text cur); reflexivity|].
        split; [discriminate|exact Happ].
      * rewrite (last_cons parts q) in *.
        split; [reflexivity|]. split; [exact Hf|]. split; [exact Hsame|].
        split; [exists before; exact Hbefore|]. split; [discriminate|].
        intros more. rewrite <- Happ.
        change ((p :: q :: parts) ++ more) with (p :: (q :: parts) ++ more).
        simpl. rewrite ?Hc, ?Hp. reflexivity.
Qed.

Lemma text_part_of_text p :
  falsy (glm.text p) = false -> p = glm.Part_text (glm.text p).
Proof. destruct p; simpl; intros H; [reflexivity|discriminate..]. Qed.

(** A text in front of the first part is carried into the first merged
    part and changes nothing else. *)
Lemma merge_from_prefix parts : forall b h t s,
  falsy (glm.text b) = false ->
  merge_from b parts = h :: t ->
  merge_from (glm.Part_text (String.append s (glm.text b))) parts
  = glm.Part_text (String.append s (glm.text h)) :: t.
Proof.
  induction parts as [|q parts IH]; intros b h t s Hb Hm; simpl in *.
  - injection Hm as <- <-. reflexivity.
  - rewrite Hb in Hm. rewrite falsy_append, Hb, andb_false_r. simpl in *.
    destruct (falsy (glm.text q)) eqn:Hq.
    + injection Hm as <- <-. reflexivity.
    + rewrite append_assoc.
      apply (IH (glm.Part_text (String.append (glm.text b) (glm.text q)))).
      * simpl. rewrite falsy_append, Hb. reflexivity.
      * exact Hm.
Qed.

(** Across a boundary with a part that carries no text on either side, the
    merged parts are those of the two sides, one after the other. *)
Lemma merge_parts_boundary P a b Q :
  falsy (glm.text a) || falsy (glm.text b) = true ->
  exists left right,
    merge_parts (P ++ [a]) = Ok left /\
    merge_parts (b :: Q) = Ok right /\
    merge_parts (P ++ a :: b :: Q) = Ok (left ++ right) /\
    (falsy (glm.text a) = true -> exists l, left = l ++ [a]) /\
    (falsy (glm.text b) = true -> exists r, right = b :: r).
Proof.
  intros Hb.
  assert (Hsplit : exists p0 ps, P ++ [a] = p0 :: ps /\ last ps p0 = a /\
                                 P ++ a :: b :: Q = p0 :: ps ++ b :: Q).
  { destruct P as [|p0 P]; simpl.
    - exists a, []. repeat split.
    - exists p0, (P ++ [a]). rewrite last_last, <- app_assoc. repeat split. }
  destruct Hsplit as (p0 & ps & -> & Hlast & ->).
  rewrite !merge_parts_cons.
  destruct (merge_from_app ps p0) as (front & lp & Hm & Hf & Hsame & _ & _ & Happ).
  rewrite Hlast in Hf, Hsame.
  exists (merge_from p0 ps), (merge_from b Q).
  split; [reflexivity|]. split; [reflexivity|]. split.
  - rewrite Happ, Hm. simpl. rewrite Hf, Hb, <- app_assoc. reflexivity.
  - split.
    + intros Ha. exists front. rewrite Hm, (Hsame Ha). reflexivity.
    + intros Hfb. destruct (merge_from_head Q b) as (h & t & Hh & _ & Hhb & _).
      exists t. rewrite Hh, (Hhb Hfb). reflexivity.
Qed.

(** Across a boundary between two parts that both carry a text, the last
    merged part of the left side takes the text of the first merged part of
    the right side. *)
Lemma merge_parts_fused P a b Q :
  falsy (glm.text a) = false ->
  falsy (glm.text b) = false ->
  exists front s t rest,
    merge_parts (P ++ [a]) = Ok (front ++ [glm.Part_text s]) /\
    merge_parts (b :: Q) = Ok (glm.Part_text t :: rest) /\
    merge_parts (P ++ a :: b :: Q)
    = Ok (front ++ glm.Part_text (String.append s t) :: rest) /\
    (exists s0, s = String.append s0 (glm.text a)) /\
    (exists t0, t = String.append (glm.text b) t0) /\
    (P = [] -> s = glm.text a) /\
    (Q = [] -> t = glm.text b).
Proof.
  intros Ha Hb.
  assert (Hsplit : exists p0 ps, P ++ [a] = p0 :: ps /\ last ps p0 = a /\
                                 P ++ a :: b :: Q = p0 :: ps ++ b :: Q /\
                                 (P = [] -> ps = [] /\ p0 = a)).
  { destruct P as [|p0 P]; simpl.
    - exists a, []. repeat split.
    - exists p0, (P ++ [a]). rewrite last_last, <- app_assoc.
      repeat split; discriminate. }
  destruct Hsplit as (p0 & ps & -> & Hlast & -> & HP).
  rewrite !merge_parts_cons.
  destruct (merge_from_app ps p0)
    as (front & lp & Hm & Hf & _ & Hbefore & Hnil & Happ).
  rewrite Hlast in Hf, Hbefore. rewrite Ha in Hf.
  destruct (merge_from_head Q b) as (h & t & Hh & Hfh & _ & Hmore & HQ).
  rewrite Hb in Hfh.
  exists front, (glm.text lp), (glm.text h), t.
  split; [rewrite Hm, <- (text_part_of_text lp Hf); reflexivity|].
  split; [rewrite Hh, <- (text_part_of_text h Hfh); reflexivity|].
  split.
  - rewrite Happ. simpl. rewrite Hf, Hb. simpl.
    rewrite (merge_from_prefix Q b h t (glm.text lp) Hb Hh). reflexivity.
  - split; [exact Hbefore|]. split; [exact Hmore|]. split.
    + intros HPnil. destruct (HP HPnil) as [-> ->]. rewrite (Hnil eq_refl).
      reflexivity.
    + intros HQnil. rewrite (HQ HQnil). reflexivity.
Qed.

Lemma join_contents_one c :
  _join_contents [c]
  = (merged_parts <- merge_parts (glm.parts c) ;;
     Ok {| glm.parts := merged_parts; glm.role := glm.role c |}).
Proof.
  unfold _join_contents. simpl. rewrite String.eqb_refl. reflexivity.
Qed.

Lemma join_contents_two c1 c2 :
  glm.role c1 = glm.role c2 ->
  _join_contents [c1; c2]
  = (merged_parts <- merge_parts (glm.parts c1 ++ glm.parts c2) ;;
     Ok {| glm.parts := merged_parts; glm.role := glm.role c1 |}).
Proof.
  intros Hr. unfold _join_contents. simpl.
  rewrite Hr, String.eqb_refl. reflexivity.
Qed.

Lemma join_contents_ok contents r :
  _join_contents contents = Ok r ->
  exists c0 rest p0 ps,
    contents = c0 :: rest /\
    forallb (fun c => String.eqb (glm.role c) (glm.role c0)) contents = true /\
    all_parts contents = p0 :: ps /\
    r = {| glm.parts := merge_from p0 ps; glm.role := glm.role c0 |}.
Proof.
  unfold _join_contents. destruct contents as [|c0 rest]; [discriminate|].
  destruct (forallb _ (c0 :: rest)) eqn:Hall; [|discriminate].
  destruct (all_parts (c0 :: rest)) as [|p0 ps] eqn:Hparts; [discriminate|].
  rewrite merge_parts_cons. simpl. intros H; injection H as <-.
  exists c0, rest, p0, ps. repeat split; assumption.
Qed.

(** C10: in [_join_contents], whenever one of two parts in a row of the
    concatenated part list has an empty [text] (a part without text, or a
    text part holding the empty string), nothing is concatenated across
    them: the merged parts are the merged parts up to the first one,
    followed by the merged parts from the second on; a part with an empty
    [text] at that boundary stays as it is. So a content that ends in an
    empty-string text part followed by a content that begins with a text
    part gives two parts there, not one. *)
Theorem empty_text_is_a_boundary
    (contents : list glm.Content) (joined : glm.Content)
    (P Q : list glm.Part) (a b : glm.Part) :
  _join_contents contents = Ok joined ->
  all_parts contents = P ++ a :: b :: Q ->
  glm.text a = EmptyString \/ glm.text b = EmptyString ->
  exists left right,
    merge_parts (P ++ [a]) = Ok left /\
    merge_parts (b :: Q) = Ok right /\
    glm.parts joined = left ++ right /\
    (glm.text a = EmptyString -> exists l, left = l ++ [a]) /\
    (glm.text b = EmptyString -> exists r, right = b :: r).
Proof.
  intros Hj Hparts Hempty.
  destruct (join_contents_ok _ _ Hj) as (c0 & rest & p0 & ps & _ & _ & Hp & ->).
  assert (Hb : falsy (glm.text a) || falsy (glm.text b) = true).
  { apply orb_true_iff. destruct Hempty as [H|H]; [left|right];
      apply falsy_empty; exact H. }
  destruct (merge_parts_boundary P a b Q Hb)
    as (left & right & Hl & Hr & Hlr & Hla & Hrb).
  exists left, right. split; [exact Hl|]. split; [exact Hr|]. split.
  - rewrite <- Hparts, Hp, merge_parts_cons in Hlr. injection Hlr as <-.
    reflexivity.
  - split; intros H; [apply Hla|apply Hrb]; apply falsy_empty; exact H.
Qed.

Lemma empty_text_is_a_boundary_witness :
  exists left right,
    merge_parts ([] ++ [glm.Part_text ""]) = Ok left /\
    merge_parts [glm.Part_text "world!"] = Ok right /\
    [glm.Part_text ""; glm.Part_text "world!"] = left ++ right /\
    (glm.text (glm.Part_text "") = EmptyString ->
     exists l, left = l ++ [glm.Part_text ""]) /\
    (glm.text (glm.Part_text "world!") = EmptyString ->
     exists r, right = glm.Part_text "world!" :: r).
Proof.
  exact (empty_text_is_a_boundary
           [ {| glm.parts := [glm.Part_text ""]; glm.role := "model" |};
             {| glm.parts := [glm.Part_text "world!"]; glm.role := "model" |} ]
           {| glm.parts := [glm.Part_text ""; glm.Part_text "world!"];
              glm.role := "model" |}
           [] [] (glm.Part_text "") (glm.Part_text "world!")
           eq_refl eq_refl (or_introl eq_refl)).
Defined.

(** C2 (as the code has it): for two contents of equal role, [c1] ending in
    the part [a] and [c2] beginning with the part [b]. When [a] and [b] both
    carry a non-empty text, [_join_contents [c1; c2]] has one part at the
    boundary: the last merged part of [c1] with the text of the first merged
    part of [c2] appended, the other merged parts of both staying around it;
    that text ends the text of [a] and begins the text of [b], and is
    exactly the one after the other when they are the only parts ("Hello, "
    and "world!" give "Hello, world!"). When [b] is not a text part, the
    merged parts of [c1] are followed by [b] and the rest of the merged
    parts of [c2]: [b] is not concatenated to anything. *)
Theorem text_parts_fuse_at_boundary
    (c1 c2 : glm.Content) (P Q : list glm.Part) (a b : glm.Part) :
  glm.role c1 = glm.role c2 ->
  glm.parts c1 = P ++ [a] ->
  glm.parts c2 = b :: Q ->
  (glm.text a <> EmptyString -> glm.text b <> EmptyString ->
   exists front s t rest,
     merge_parts (glm.parts c1) = Ok (front ++ [glm.Part_text s]) /\
     merge_parts (glm.parts c2) = Ok (glm.Part_text t :: rest) /\
     _join_contents [c1; c2]
     = Ok {| glm.parts := front ++ glm.Part_text (String.append s t) :: rest;
             glm.role := glm.role c1 |} /\
     (exists s0, s = String.append s0 (glm.text a)) /\
     (exists t0, t = String.append (glm.text b) t0) /\
     (P = [] -> s = glm.text a) /\
     (Q = [] -> t = glm.text b)) /\
  (glm.has_text b = false ->
   exists left rest,
     merge_parts (glm.parts c1) = Ok left /\
     merge_parts (glm.parts c2) = Ok (b :: rest) /\
     _join_contents [c1; c2]
     = Ok {| glm.parts := left ++ b :: rest; glm.role := glm.role c1 |}).
Proof.
  intros Hrole H1 H2. rewrite (join_contents_two _ _ Hrole), H1, H2.
  rewrite <- app_assoc. simpl app. split.
  - intros Ha Hb.
    assert (Hfa : falsy (glm.text a) = false).
    { destruct (falsy (glm.text a)) eqn:H; [|reflexivity].
      apply falsy_empty in H. contradiction. }
    assert (Hfb : falsy (glm.text b) = false).
    { destruct (falsy (glm.text b)) eqn:H; [|reflexivity].
      apply falsy_empty in H. contradiction. }
    destruct (merge_parts_fused P a b Q Hfa Hfb)
      as (front & s & t & rest & Hl & Hr & Hlr & Hs & Ht & HP & HQ).
    exists front, s, t, rest. rewrite Hlr. simpl. repeat split; assumption.
  - intros Hb.
    assert (Hfb : falsy (glm.text b) = true) by (destruct b; [discriminate|reflexivity..]).
    destruct (merge_parts_boundary P a b Q) as (left & right & Hl & Hr & Hlr & _ & Hrb).
    { rewrite Hfb. apply orb_true_r. }
    destruct (Hrb Hfb) as [rest ->].
    exists left, rest. rewrite Hlr. simpl. repeat split; assumption.
Qed.

Lemma text_parts_fuse_at_boundary_witness :
  exists front s t rest,
    _join_contents
      [ {| glm.parts := [glm.Part_text "Hello, "]; glm.role := "model" |};
        {| glm.parts := [glm.Part_text "world!"]; glm.role := "model" |} ]
    = Ok {| glm.parts := front ++ glm.Part_text (String.append s t) :: rest;
            glm.role := "model" |} /\
    s = "Hello, "%string /\ t = "world!"%string.
Proof.
  destruct (proj1 (text_parts_fuse_at_boundary
                     {| glm.parts := [glm.Part_text "Hello, "];
                        glm.role := "model" |}
                     {| glm.parts := [glm.Part_text "world!"];
                        glm.role := "model" |}
                     [] [] (glm.Part_text "Hello, ") (glm.Part_text "world!")
                     eq_refl eq_refl eq_refl))
    as (front & s & t & rest & _ & _ & Hj & _ & _ & HP & HQ).
  - discriminate.
  - discriminate.
  - exists front, s, t, rest.
    split; [exact Hj|]. split; [exact (HP eq_refl)|exact (HQ eq_refl)].
Defined.

(** C2, counterexample: [c1] ends in a text part and [c2] begins with a
    text part, of the same role, but the text of the first is the empty
    string; the two parts stay two. *)
Lemma empty_text_part_is_not_fused :
  glm.has_text (glm.Part_text "") = true /\
  glm.has_text (glm.Part_text "world!") = true /\
  _join_contents
    [ {| glm.parts := [glm.Part_text ""]; glm.role := "model" |};
      {| glm.parts := [glm.Part_text "world!"]; glm.role := "model" |} ]
  = Ok {| glm.parts := [glm.Part_text ""; glm.Part_text "world!"];
          glm.role := "model" |} /\
  _join_contents
    [ {| glm.parts := [glm.Part_text ""]; glm.role := "model" |};
      {| glm.parts := [glm.Part_text "world!"]; glm.role := "model" |} ]
  <> Ok {| glm.parts := [glm.Part_text (String.append "" "world!")];
           glm.role := "model" |}.
Proof.
  repeat split; discriminate.
Qed.

(** ** Safety ratings *)

Lemma fold_left_nested {A S} (f : S -> A -> S) (ls : list (list A)) (st : S) :
  fold_left (fun st l => fold_left f l st) ls st = fold_left f (concat ls) st.
Proof.
  revert st. induction ls as [|l ls IH]; intros st; simpl; [reflexivity|].
  rewrite fold_left_app. apply IH.
Qed.

Lemma join_safety_rated lists :
  _join_safety_ratings_lists lists
  = rated (fold_left record_rating (concat lists) ([], [])).
Proof.
  unfold _join_safety_ratings_lists. rewrite fold_left_nested. reflexivity.
Qed.

(** The two dictionaries keep the same keys in the same order, and each
    rating recorded in them is one rating absorbed by the safety list. *)
Lemma rated_record ratings : forall blocked rating,
  map fst ratings = map fst blocked ->
  map fst (fst (record_rating (ratings, blocked) rating))
  = map fst (snd (record_rating (ratings, blocked) rating)) /\
  rated (record_rating (ratings, blocked) rating)
  = absorb (rated (ratings, blocked)) rating.
Proof.
  induction ratings as [|[k p] ratings IH];
    intros [|[k' bs] blocked] [c q b] Hk; simpl in Hk; try discriminate.
  - simpl. rewrite orb_false_r. split; reflexivity.
  - injection Hk as <- Hk. specialize (IH blocked {| glm.category := c;
      glm.probability := q; glm.blocked := b |} Hk).
    unfold rated, PyDict.items, PyDict.values in *.
    simpl in *. destruct (Z.eqb k c) eqn:Hkc; simpl.
    + split; [f_equal; exact Hk|].
      rewrite existsb_app. simpl. rewrite orb_false_r. reflexivity.
    + destruct IH as [IHk IHr]. split; [f_equal; exact IHk|].
      f_equal. exact IHr.
Qed.

Lemma rated_fold all : forall ratings blocked,
  map fst ratings = map fst blocked ->
  rated (fold_left record_rating all (ratings, blocked))
  = fold_left absorb all (rated (ratings, blocked)).
Proof.
  induction all as [|r all IH]; intros ratings blocked Hk; [reflexivity|].
  change (fold_left record_rating (r :: all) (ratings, blocked))
    with (fold_left record_rating all (record_rating (ratings, blocked) r)).
  change (fold_left absorb (r :: all) (rated (ratings, blocked)))
    with (fold_left absorb all (absorb (rated (ratings, blocked)) r)).
  destruct (rated_record ratings blocked r Hk) as [Hk' Hr].
  destruct (record_rating (ratings, blocked) r) as [ratings' blocked'] eqn:Hrec.
  rewrite IH by exact Hk'. rewrite <- Hr. reflexivity.
Qed.

(** [_join_safety_ratings_lists] absorbs the ratings one by one, in the
    order of arrival. *)
Lemma join_safety_absorb lists :
  _join_safety_ratings_lists lists = fold_left absorb (concat lists) [].
Proof. rewrite join_safety_rated. apply rated_fold. reflexivity. Qed.

Lemma absorb_fresh out rating :
  ~ In (glm.category rating) (map glm.category out) ->
  absorb out rating = out ++ [rating].
Proof.
  induction out as [|o out IH]; intros Hn; simpl; [reflexivity|].
  destruct (Z.eqb_spec (glm.category o) (glm.category rating)) as [E|N].
  - contradiction Hn. left. exact E.
  - rewrite IH; [reflexivity|]. intros H. apply Hn. right. exact H.
Qed.

Lemma absorb_known out rating :
  In (glm.category rating) (map glm.category out) ->
  map glm.category (absorb out rating) = map glm.category out.
Proof.
  induction out as [|o out IH]; intros Hin; simpl; [contradiction|].
  destruct (Z.eqb_spec (glm.category o) (glm.category rating)) as [E|N].
  - reflexivity.
  - simpl. rewrite IH; [reflexivity|]. destruct Hin; [contradiction|assumption].
Qed.

(** What a rating of the safety list is after one more rating. *)
Lemma absorb_In out rating o :
  NoDup (map glm.category out) ->
  In o (absorb out rating) ->
  (glm.category o <> glm.category rating /\ In o out) \/
  (glm.category o = glm.category rating /\
   glm.probability o = glm.probability rating /\
   ((exists o', In o' out /\ glm.category o' = glm.category rating /\
                glm.blocked o = glm.blocked o' || glm.blocked rating) \/
    (~ In (glm.category rating) (map glm.category out) /\ o = rating))).
Proof.
  induction out as [|o0 out IH]; intros Hnd Hin; simpl in Hin.
  - destruct Hin as [<-|[]]. right. repeat split. right. split; [intros []|reflexivity].
  - inversion Hnd as [|? ? Hnotin Hnd']; subst.
    destruct (Z.eqb_spec (glm.category o0) (glm.category rating)) as [E|N].
    + destruct Hin as [<-|Hin].
      * right. simpl. repeat split; [exact E|]. left. exists o0.
        repeat split; [left; reflexivity|exact E].
      * left. split; [|right; exact Hin].
        intros Heq. apply Hnotin. rewrite E, <- Heq. apply in_map. exact Hin.
    + destruct Hin as [<-|Hin].
      * left. split; [exact N|left; reflexivity].
      * destruct (IH Hnd' Hin) as [[Hne Ho]|(He & Hp & Hcase)].
        -- left. split; [exact Hne|right; exact Ho].
        -- right. split; [exact He|]. split; [exact Hp|].
           destruct Hcase as [(o' & Ho' & Hc' & Hb')|[Hfresh ->]].
           ++ left. exists o'. repeat split; [right; exact Ho'|exact Hc'|exact Hb'].
           ++ right. split; [|reflexivity].
              simpl. intros [H|H]; [contradiction|apply Hfresh; exact H].
Qed.

Lemma absorb_NoDup out rating :
  NoDup (map glm.category out) ->
  NoDup (map glm.category (absorb out rating)).
Proof.
  intros Hnd.
  destruct (in_dec Z.eq_dec (glm.category rating) (map glm.category out))
    as [Hin|Hnin].
  - rewrite absorb_known by exact Hin. exact Hnd.
  - rewrite absorb_fresh by exact Hnin. rewrite map_app. simpl.
    apply NoDup_app.
    + exact Hnd.
    + constructor; [intros []|constructor].
    + intros c Hc [<-|[]]. contradiction.
Qed.

Lemma absorb_categories out rating c :
  In c (map glm.category (absorb out rating)) <->
  In c (map glm.category out) \/ c = glm.category rating.
Proof.
  destruct (in_dec Z.eq_dec (glm.category rating) (map glm.category out))
    as [Hin|Hnin].
  - rewrite absorb_known by exact Hin. split; [tauto|].
    intros [H| ->]; assumption.
  - rewrite absorb_fresh by exact Hnin. rewrite map_app, in_app_iff. simpl.
    split.
    + intros [H|[<-|[]]]; auto.
    + intros [H| ->]; auto.
Qed.

Lemma absorb_summarises seen :
  summarises (fold_left absorb seen []) seen.
Proof.
  induction seen as [|x seen IH] using rev_ind.
  - split; [constructor|]. split; [intros c; reflexivity|intros o []].
  - rewrite fold_left_app. simpl.
    destruct IH as (Hnd & Hcats & Hout).
    set (out := fold_left absorb seen []) in *.
    split; [apply absorb_NoDup; exact Hnd|]. split.
    + intros c. rewrite absorb_categories, map_app, in_app_iff, Hcats. simpl.
      split; intros [H|H]; auto.
      * destruct H as [H|[]]; auto.
    + intros o Ho.
      destruct (absorb_In out x o Hnd Ho) as [[Hne Hin]|(He & Hp & Hcase)].
      * destruct (Hout o Hin) as [(before & x0 & after & Hs & Hc & Hpr & Hafter) Hb].
        split.
        -- exists before, x0, (after ++ [x]). rewrite Hs, <- app_assoc.
           repeat split; auto.
           intros y Hy. apply in_app_iff in Hy as [Hy|[<-|[]]]; auto.
        -- rewrite Hb. split; intros (x1 & Hx1 & Hc1 & Hb1).
           ++ exists x1. repeat split; auto. apply in_app_iff. left. exact Hx1.
           ++ apply in_app_iff in Hx1 as [Hx1|[<-|[]]].
              ** exists x1. repeat split; auto.
              ** symmetry in Hc1. contradiction.
      * split.
        -- exists seen, x, []. repeat split; auto; intros y [].
        -- destruct Hcase as [(o' & Ho' & Hc' & Hb')|[Hfresh ->]].
           ++ rewrite Hb', orb_true_iff.
              destruct (Hout o' Ho') as [_ Hbo']. rewrite Hbo'.
              split.
              ** intros [(x1 & Hx1 & Hc1 & Hb1)|Hbx].
                 --- exists x1. repeat split; auto;
                       [apply in_app_iff; left; exact Hx1|congruence].
                 --- exists x. repeat split; auto.
                     apply in_app_iff. right. left. reflexivity.
              ** intros (x1 & Hx1 & Hc1 & Hb1).
                 apply in_app_iff in Hx1 as [Hx1|[<-|[]]].
                 --- left. exists x1. repeat split; auto. congruence.
                 --- right. exact Hb1.
           ++ split.
              ** intros Hbx. exists x. repeat split; auto.
                 apply in_app_iff. right. left. reflexivity.
              ** intros (x1 & Hx1 & Hc1 & Hb1).
                 apply in_app_iff in Hx1 as [Hx1|[<-|[]]]; [|exact Hb1].
                 contradiction Hfresh. apply Hcats. rewrite <- Hc1.
                 apply in_map. exact Hx1.
Qed.

(** C3: the list [_join_safety_ratings_lists] returns has exactly one
    rating for each category that occurs in the lists it is given (no
    category twice, and the categories are those seen), and that rating
    carries the probability of the last rating seen for its category and a
    blocked flag that is true exactly when some rating seen for its category
    was blocked. *)
Theorem one_rating_per_category (lists : list (list glm.SafetyRating)) :
  NoDup (map glm.category (_join_safety_ratings_lists lists)) /\
  (forall c, In c (map glm.category (_join_safety_ratings_lists lists)) <->
             In c (map glm.category (concat lists))) /\
  forall o, In o (_join_safety_ratings_lists lists) ->
    (exists before x after,
       concat lists = before ++ x :: after /\
       glm.category x = glm.category o /\
       glm.probability x = glm.probability o /\
       forall y, In y after -> glm.category y <> glm.category o) /\
    (glm.blocked o = true <->
     exists x, In x (concat lists) /\ glm.category x = glm.category o /\
               glm.blocked x = true).
Proof.
  rewrite join_safety_absorb. exact (absorb_summarises (concat lists)).
Qed.

(** For instance: category 1 is rated twice, the second time blocked. *)
Example safety_any_blocked :
  _join_safety_ratings_lists
    [ [ {| glm.category := 1; glm.probability := 2; glm.blocked := false |};
        {| glm.category := 3; glm.probability := 2; glm.blocked := false |} ];
      [ {| glm.category := 1; glm.probability := 4; glm.blocked := true |} ] ]
  = [ {| glm.category := 1; glm.probability := 4; glm.blocked := true |};
      {| glm.category := 3; glm.probability := 2; glm.blocked := false |} ].
Proof. reflexivity. Qed.

(** ** Grouping and ordering candidates *)

Lemma mapM_ext_in {A B} (f g : A -> result B) (l : list A) :
  (forall x, In x l -> f x = g x) -> mapM f l = mapM g l.
Proof.
  induction l as [|x l IH]; intros H; simpl; [reflexivity|].
  rewrite (H x) by (left; reflexivity).
  rewrite IH; [reflexivity|]. intros y Hy. apply H. right. exact Hy.
Qed.

Lemma mapM_map {A B C} (h : A -> B) (f : B -> result C) (l : list A) :
  mapM f (map h l) = mapM (fun x => f (h x)) l.
Proof.
  induction l as [|x l IH]; simpl; [reflexivity|]. rewrite IH. reflexivity.
Qed.

Lemma mapM_ok {A B} (f : A -> result B) (l : list A) (ys : list B) :
  mapM f l = Ok ys -> Forall2 (fun x y => f x = Ok y) l ys.
Proof.
  revert ys. induction l as [|x l IH]; intros ys; simpl.
  - intros H; injection H as <-. constructor.
  - destruct (f x) as [y|e] eqn:Hx; simpl; [|discriminate].
    destruct (mapM f l) as [ys'|e]; simpl; [|discriminate].
    intros H; injection H as <-. constructor; [exact Hx|apply IH; reflexivity].
Qed.

Section Sorting.

Variable V : Type.
Implicit Types (kv : Z * V) (l : list (Z * V)).

Lemma insert_sorted_In kv l x :
  In x (PyDict.insert_sorted kv l) <-> x = kv \/ In x l.
Proof.
  induction l as [|kv' l IH]; simpl.
  - split; intros [H|H]; auto.
  - destruct (Z.leb (fst kv) (fst kv')); simpl.
    + split; intros [H|H]; auto.
    + rewrite IH. split; intros H; tauto.
Qed.

Lemma insert_sorted_sorted kv l :
  StronglySorted key_le l ->
  StronglySorted key_le (PyDict.insert_sorted kv l).
Proof.
  induction 1 as [|kv' l Hs IH Hall]; simpl.
  - constructor; constructor.
  - destruct (Z.leb_spec (fst kv) (fst kv')) as [Hle|Hgt].
    + constructor; [constructor; assumption|].
      constructor; [exact Hle|].
      rewrite Forall_forall in *. intros x Hx. specialize (Hall x Hx).
      unfold key_le in *. lia.
    + constructor; [exact IH|].
      rewrite Forall_forall in *. intros x Hx.
      apply insert_sorted_In in Hx as [->|Hx]; [unfold key_le; lia|auto].
Qed.

Lemma insert_sorted_keys kv l :
  Permutation (map fst (PyDict.insert_sorted kv l)) (fst kv :: map fst l).
Proof.
  induction l as [|kv' l IH]; simpl; [reflexivity|].
  destruct (Z.leb (fst kv) (fst kv')); simpl; [reflexivity|].
  rewrite IH. apply perm_swap.
Qed.

Lemma sorted_In l x : In x (PyDict.sorted l) <-> In x l.
Proof.
  induction l as [|kv l IH]; simpl; [reflexivity|].
  rewrite insert_sorted_In, IH. split; intros [H|H]; auto.
Qed.

Lemma sorted_sorted l : StronglySorted key_le (PyDict.sorted l).
Proof.
  induction l as [|kv l IH]; simpl; [constructor|].
  apply insert_sorted_sorted. exact IH.
Qed.

Lemma sorted_keys l : Permutation (map fst (PyDict.sorted l)) (map fst l).
Proof.
  induction l as [|kv l IH]; simpl; [reflexivity|].
  rewrite insert_sorted_keys, IH. reflexivity.
Qed.

(** With distinct keys the order is strict. *)
Lemma sorted_keys_strict l :
  NoDup (map fst l) ->
  StronglySorted Z.lt (map fst (PyDict.sorted l)).
Proof.
  intros Hnd.
  assert (Hnd' : NoDup (map fst (PyDict.sorted l))).
  { eapply Permutation_NoDup; [symmetry; apply sorted_keys|exact Hnd]. }
  generalize (sorted_sorted l). revert Hnd'.
  induction (PyDict.sorted l) as [|kv s IH]; intros Hn Hs; simpl;
    [constructor|].
  inversion Hn as [|? ? Hnotin Hn']; subst.
  inversion Hs as [|? ? Hs' Hall]; subst.
  constructor; [apply IH; assumption|].
  rewrite Forall_forall in *. intros k Hk.
  apply in_map_iff in Hk as (x & <- & Hx).
  specialize (Hall x Hx). unfold key_le in Hall.
  assert (fst kv <> fst x).
  { intros E. apply Hnotin. rewrite E. apply in_map. exact Hx. }
  lia.
Qed.

End Sorting.

(** A strictly increasing list is known by its elements. *)
Lemma strictly_sorted_unique (l1 : list Z) : forall l2,
  StronglySorted Z.lt l1 ->
  StronglySorted Z.lt l2 ->
  (forall k, In k l1 <-> In k l2) ->
  l1 = l2.
Proof.
  induction l1 as [|a l1 IH]; intros [|b l2] H1 H2 Hin.
  - reflexivity.
  - destruct (proj2 (Hin b)); left; reflexivity.
  - destruct (proj1 (Hin a)); left; reflexivity.
  - inversion H1 as [|? ? H1' Ha]; subst.
    inversion H2 as [|? ? H2' Hb]; subst.
    rewrite Forall_forall in Ha, Hb.
    assert (a = b).
    { destruct (proj1 (Hin a) (or_introl eq_refl)) as [E|Ha2]; [auto|].
      destruct (proj2 (Hin b) (or_introl eq_refl)) as [E|Hb1]; [auto|].
      specialize (Ha b Hb1). specialize (Hb a Ha2). lia. }
    subst b. f_equal. apply IH; try assumption.
    intros k. split; intros Hk.
    + destruct (proj1 (Hin k) (or_intror Hk)) as [E|H]; [|exact H].
      subst k. specialize (Ha a Hk). lia.
    + destruct (proj2 (Hin k) (or_intror Hk)) as [E|H]; [|exact H].
      subst k. specialize (Hb a Hk). lia.
Qed.

Lemma strictly_sorted_NoDup (l : list Z) :
  StronglySorted Z.lt l -> NoDup l.
Proof.
  induction 1 as [|a l Hs IH Hall]; constructor; [|exact IH].
  intros Hin. rewrite Forall_forall in Hall. specialize (Hall a Hin). lia.
Qed.

Lemma append_item_keys {X} (d : PyDict.dict (list X)) k (x : X) :
  map fst (PyDict.append_item d k x)
  = if in_dec Z.eq_dec k (map fst d) then map fst d else map fst d ++ [k].
Proof.
  induction d as [|[k' l] d IH]; simpl; [reflexivity|].
  destruct (Z.eqb_spec k' k) as [E|N]; simpl.
  - destruct (Z.eq_dec k' k); [reflexivity|contradiction].
  - rewrite IH. destruct (Z.eq_dec k' k) as [E|N']; [contradiction|].
    destruct (in_dec Z.eq_dec k (map fst d)); reflexivity.
Qed.

Lemma append_item_In {X} (d : PyDict.dict (list X)) k (x : X) k' l' :
  NoDup (map fst d) ->
  In (k', l') (PyDict.append_item d k x) <->
  (k' <> k /\ In (k', l') d) \/
  (k' = k /\ ((exists l, In (k, l) d /\ l' = l ++ [x]) \/
              (~ In k (map fst d) /\ l' = [x]))).
Proof.
  induction d as [|[k0 l0] d IH]; intros Hnd; simpl.
  - split.
    + intros [H|[]]. injection H as <- <-. right. split; [reflexivity|].
      right. split; [intros []|reflexivity].
    + intros [[_ []]|[-> [(l & [] & _)|[_ ->]]]]. left. reflexivity.
  - inversion Hnd as [|? ? Hnotin Hnd']; subst. specialize (IH Hnd').
    destruct (Z.eqb_spec k0 k) as [E|N]; simpl.
    + subst k0. split.
      * intros [H|H].
        -- injection H as <- <-. right. split; [reflexivity|]. left.
           exists l0. split; [left; reflexivity|reflexivity].
        -- left. split; [|right; exact H]. intros ->. apply Hnotin.
           change k with (fst (k, l')). apply in_map. exact H.
      * intros [[Hne [H|H]]|[-> [(l & [H|H] & ->)|[Hn _]]]].
        -- injection H as -> _. contradiction.
        -- right. exact H.
        -- injection H as ->. left. reflexivity.
        -- contradiction Hnotin. change k with (fst (k, l)).
           apply in_map. exact H.
        -- contradiction Hn. left. reflexivity.
    + rewrite IH. split.
      * intros [H|[[Hne H]|[-> [(l & H & ->)|[Hn ->]]]]].
        -- injection H as <- <-. left. split; [exact N|left; reflexivity].
        -- left. split; [exact Hne|right; exact H].
        -- right. split; [reflexivity|]. left. exists l.
           split; [right; exact H|reflexivity].
        -- right. split; [reflexivity|]. right. split; [|reflexivity].
           intros [H|H]; [contradiction|apply Hn; exact H].
      * intros [[Hne [H|H]]|[-> [(l & [H|H] & ->)|[Hn ->]]]].
        -- left. exact H.
        -- right. left. split; assumption.
        -- injection H as -> _. contradiction.
        -- right. right. split; [reflexivity|]. left. exists l.
           split; [exact H|reflexivity].
        -- right. right. split; [reflexivity|]. right. split; [|reflexivity].
           intros H. apply Hn. right. exact H.
Qed.

Lemma filter_has_index_snoc k all x :
  filter (has_index k) (all ++ [x])
  = filter (has_index k) all ++ (if has_index k x then [x] else []).
Proof. rewrite filter_app. reflexivity. Qed.

Lemma filter_nonempty_In k all :
  filter (has_index k) all <> [] <-> In k (map glm.index all).
Proof.
  split.
  - intros H. destruct (filter (has_index k) all) as [|c l] eqn:Hf;
      [contradiction|].
    assert (Hc : In c (filter (has_index k) all)) by (rewrite Hf; left; reflexivity).
    apply filter_In in Hc as [Hc Hk]. apply Z.eqb_eq in Hk. rewrite <- Hk.
    apply in_map. exact Hc.
  - intros H. apply in_map_iff in H as (c & Hk & Hc).
    assert (Hin : In c (filter (has_index k) all)).
    { apply filter_In. split; [exact Hc|]. apply Z.eqb_eq. exact Hk. }
    intros E. rewrite E in Hin. exact Hin.
Qed.

Lemma grouped_snoc all x :
  grouped (all ++ [x]) = PyDict.append_item (grouped all) (glm.index x) x.
Proof. unfold grouped. rewrite fold_left_app. reflexivity. Qed.

(** The dictionary holds, under each index that occurs, the candidates of
    that index in arrival order, and nothing else. *)
Lemma grouped_spec all :
  NoDup (map fst (grouped all)) /\
  (forall k, In k (map fst (grouped all)) <-> In k (map glm.index all)) /\
  forall k l, In (k, l) (grouped all) <->
              l = filter (has_index k) all /\ l <> [].
Proof.
  induction all as [|x all IH] using rev_ind.
  - split; [constructor|]. split; [intros k; reflexivity|].
    intros k l. simpl. split; [intros []|intros [-> H]; apply H; reflexivity].
  - destruct IH as (Hnd & Hkeys & Hin).
    rewrite grouped_snoc.
    set (d := grouped all) in *.
    assert (Hkeys' : forall k,
               In k (map fst (PyDict.append_item d (glm.index x) x)) <->
               In k (map glm.index (all ++ [x]))).
    { intros k. rewrite append_item_keys, map_app, in_app_iff. simpl.
      destruct (in_dec Z.eq_dec (glm.index x) (map fst d)) as [Hi|Hn].
      - rewrite Hkeys. split; [auto|]. intros [H|[<-|[]]]; [exact H|].
        apply Hkeys. exact Hi.
      - rewrite in_app_iff, Hkeys. simpl. reflexivity. }
    split; [|split; [exact Hkeys'|]].
    + rewrite append_item_keys.
      destruct (in_dec Z.eq_dec (glm.index x) (map fst d)) as [Hi|Hn];
        [exact Hnd|].
      apply NoDup_app; [exact Hnd|constructor; [intros []|constructor]|].
      intros k Hk [<-|[]]. contradiction.
    + intros k l. rewrite (append_item_In d (glm.index x) x k l Hnd).
      rewrite filter_has_index_snoc. unfold has_index at 2.
      destruct (Z.eqb_spec (glm.index x) k) as [E|N].
      * subst k. split.
        -- intros [[Hne _]|[_ [(l0 & Hl0 & ->)|[Hn ->]]]]; [contradiction| |].
           ++ apply Hin in Hl0 as [-> _]. split; [reflexivity|].
              intros E. apply app_eq_nil in E as [_ E]. discriminate.
           ++ split; [|discriminate].
              destruct (filter (has_index (glm.index x)) all) eqn:Hf;
                [reflexivity|].
              contradiction Hn. apply Hkeys. apply filter_nonempty_In.
              rewrite Hf. discriminate.
        -- intros [-> _]. right. split; [reflexivity|].
           destruct (in_dec Z.eq_dec (glm.index x) (map fst d)) as [Hi|Hn].
           ++ left. exists (filter (has_index (glm.index x)) all).
              split; [|reflexivity]. apply Hin. split; [reflexivity|].
              apply filter_nonempty_In. apply Hkeys. exact Hi.
           ++ right. split; [exact Hn|].
              destruct (filter (has_index (glm.index x)) all) eqn:Hf;
                [reflexivity|].
              contradiction Hn. apply Hkeys. apply filter_nonempty_In.
              rewrite Hf. discriminate.
      * rewrite app_nil_r. split.
        -- intros [[_ H]|[E _]]; [apply Hin; exact H|].
           symmetry in E. contradiction.
        -- intros H. left. split; [intros E; symmetry in E; contradiction|].
           apply Hin. exact H.
Qed.

Lemma indices_spec all :
  StronglySorted Z.lt (indices all) /\
  forall k, In k (indices all) <-> In k (map glm.index all).
Proof.
  destruct (grouped_spec all) as (Hnd & Hkeys & _). split.
  - apply sorted_keys_strict. exact Hnd.
  - intros k. unfold indices. rewrite <- Hkeys.
    split; apply Permutation_in;
      [apply sorted_keys|symmetry; apply sorted_keys].
Qed.

(** [_join_candidate_lists] joins, index by index in increasing order, the
    candidates of that index in arrival order. *)
Lemma join_candidate_lists_by_index candidate_lists :
  _join_candidate_lists candidate_lists
  = mapM (fun k => _join_candidates
                     (filter (has_index k) (concat candidate_lists)))
         (indices (concat candidate_lists)).
Proof.
  unfold _join_candidate_lists. rewrite fold_left_nested.
  fold (grouped (concat candidate_lists)). unfold indices.
  rewrite mapM_map. apply mapM_ext_in. intros [k l] Hkl. simpl.
  apply (proj1 (sorted_In _ _ _)) in Hkl.
  apply (proj1 (proj2 (proj2 (grouped_spec _)) _ _)) in Hkl as [-> _].
  reflexivity.
Qed.

(** ** Joining the candidates of one index *)

Lemma join_candidates_ok G g :
  _join_candidates G = Ok g ->
  exists c0 rest content,
    G = c0 :: rest /\
    forallb (fun c => Z.eqb (glm.index c) (glm.index c0)) G = true /\
    _join_contents (map glm.content G) = Ok content /\
    g = {| glm.index := glm.index c0;
           glm.content := content;
           glm.finish_reason := glm.finish_reason (last G c0);
           glm.safety_ratings :=
             _join_safety_ratings_lists (map glm.safety_ratings G);
           glm.citation_metadata :=
             _join_citation_metadatas (map glm.citation_metadata G) |}.
Proof.
  unfold _join_candidates. destruct G as [|c0 rest]; [discriminate|].
  destruct (forallb _ (c0 :: rest)) eqn:Hall; [|discriminate].
  destruct (_join_contents (map glm.content (c0 :: rest))) as [content|e]
    eqn:Hc; simpl; [|discriminate].
  intros H; injection H as <-.
  exists c0, rest, content. repeat split; assumption.
Qed.

Lemma join_candidates_index k all g :
  _join_candidates (filter (has_index k) all) = Ok g -> glm.index g = k.
Proof.
  intros H. destruct (join_candidates_ok _ _ H)
    as (c0 & rest & content & HG & _ & _ & ->). simpl.
  assert (Hin : In c0 (filter (has_index k) all)) by (rewrite HG; left; reflexivity).
  apply filter_In in Hin as [_ Hk]. apply Z.eqb_eq. exact Hk.
Qed.

Lemma Forall2_In_l {A B} (R : A -> B -> Prop) l ys x :
  Forall2 R l ys -> In x l -> exists y, In y ys /\ R x y.
Proof.
  induction 1 as [|a b l ys Hab _ IH]; intros Hin; [destruct Hin|].
  destruct Hin as [<-|Hin].
  - exists b. split; [left; reflexivity|exact Hab].
  - destruct (IH Hin) as (y & Hy & Hr). exists y. split; [right|]; assumption.
Qed.

Lemma Forall2_In_r {A B} (R : A -> B -> Prop) l ys y :
  Forall2 R l ys -> In y ys -> exists x, In x l /\ R x y.
Proof.
  induction 1 as [|a b l ys Hab _ IH]; intros Hin; [destruct Hin|].
  destruct Hin as [<-|Hin].
  - exists a. split; [left; reflexivity|exact Hab].
  - destruct (IH Hin) as (x & Hx & Hr). exists x. split; [right|]; assumption.
Qed.

(** The joined candidates: one for each index, in increasing order of the
    indices, each the join of the candidates of its index. *)
Lemma join_candidate_lists_ok candidate_lists joined :
  _join_candidate_lists candidate_lists = Ok joined ->
  Forall2 (fun k g =>
             _join_candidates (filter (has_index k) (concat candidate_lists))
             = Ok g)
          (indices (concat candidate_lists)) joined /\
  map glm.index joined = indices (concat candidate_lists).
Proof.
  rewrite join_candidate_lists_by_index. intros H. apply mapM_ok in H.
  split; [exact H|].
  induction H as [|k g ks gs Hkg _ IH]; simpl; [reflexivity|].
  rewrite IH, (join_candidates_index _ _ _ Hkg). reflexivity.
Qed.

Lemma filter_has_index_unique joined g :
  NoDup (map glm.index joined) ->
  In g joined ->
  filter (has_index (glm.index g)) joined = [g].
Proof.
  induction joined as [|a joined IH]; intros Hnd Hin; [destruct Hin|].
  simpl in Hnd. inversion Hnd as [|? ? Hnotin Hnd']; subst. simpl.
  assert (Hnone : forall l, ~ In (glm.index a) (map glm.index l) ->
                            filter (has_index (glm.index a)) l = []).
  { intros l Hn. induction l as [|b l IHl]; [reflexivity|]. simpl.
    unfold has_index at 1. destruct (Z.eqb_spec (glm.index b) (glm.index a)) as [E|N].
    - contradiction Hn. left. exact E.
    - apply IHl. intros H. apply Hn. right. exact H. }
  destruct Hin as [<-|Hin].
  - unfold has_index at 1. rewrite Z.eqb_refl. rewrite Hnone by exact Hnotin.
    reflexivity.
  - unfold has_index at 1.
    destruct (Z.eqb_spec (glm.index a) (glm.index g)) as [E|N].
    + contradiction Hnotin. rewrite E. apply in_map. exact Hin.
    + apply IH; assumption.
Qed.

Lemma filter_has_index_absent k (l : list glm.Candidate) :
  (forall x, In x l -> glm.index x <> k) -> filter (has_index k) l = [].
Proof.
  induction l as [|b l IH]; intros H; [reflexivity|]. simpl.
  unfold has_index at 1. destruct (Z.eqb_spec (glm.index b) k) as [E|N].
  - contradiction (H b (or_introl eq_refl)).
  - apply IH. intros x Hx. apply H. right. exact Hx.
Qed.


Lemma join_chunks_ok chunks merged :
  _join_chunks chunks = Ok merged ->
  exists first rest,
    chunks = first :: rest /\
    _join_candidate_lists (map glm.candidates chunks)
    = Ok (glm.candidates merged) /\
    glm.prompt_feedback merged = glm.prompt_feedback first.
Proof.
  unfold _join_chunks.
  destruct (_join_candidate_lists (map glm.candidates chunks)) as [cs|e];
    simpl; [|discriminate].
  destruct chunks as [|first rest]; simpl; [discriminate|].
  intros H; injection H as <-. exists first, rest. repeat split.
Qed.

(** ** Joining a joined value again *)

Lemma join_citations_sources l :
  glm.citation_sources (_join_citation_metadatas l)
  = concat (map glm.citation_sources l).
Proof.
  unfold _join_citation_metadatas. simpl. rewrite fold_left_extend.
  reflexivity.
Qed.

Lemma join_citations_assoc G M :
  _join_citation_metadatas (_join_citation_metadatas G :: M)
  = _join_citation_metadatas (G ++ M).
Proof.
  unfold _join_citation_metadatas. f_equal. rewrite !fold_left_extend.
  simpl. rewrite ?fold_left_extend, map_app, concat_app. reflexivity.
Qed.

Lemma absorb_distinct l : forall acc,
  NoDup (map glm.category (acc ++ l)) ->
  fold_left absorb l acc = acc ++ l.
Proof.
  induction l as [|x l IH]; intros acc Hnd; simpl.
  - rewrite app_nil_r. reflexivity.
  - replace (acc ++ x :: l) with ((acc ++ [x]) ++ l) in *
      by (rewrite <- app_assoc; reflexivity).
    rewrite absorb_fresh; [apply IH; exact Hnd|].
    rewrite map_app in Hnd. apply NoDup_app_remove_r in Hnd.
    rewrite map_app in Hnd. simpl in Hnd.
    apply NoDup_remove_2 in Hnd. rewrite app_nil_r in Hnd. exact Hnd.
Qed.

Lemma join_safety_assoc Ls Ms :
  _join_safety_ratings_lists (_join_safety_ratings_lists Ls :: Ms)
  = _join_safety_ratings_lists (Ls ++ Ms).
Proof.
  rewrite !join_safety_absorb. simpl. rewrite concat_app, !fold_left_app.
  f_equal. apply (absorb_distinct _ []). simpl.
  apply (absorb_summarises (concat Ls)).
Qed.

Lemma merge_separated front : forall lp h t more,
  separated (front ++ [lp]) = true ->
  front ++ [lp] = h :: t ->
  merge_from h (t ++ more) = front ++ merge_from lp more.
Proof.
  induction front as [|f front IH]; intros lp h t more Hs Hsplit.
  - injection Hsplit as <- <-. reflexivity.
  - simpl in Hsplit. injection Hsplit as <- <-.
    change ((f :: front) ++ [lp]) with (f :: (front ++ [lp])) in Hs.
    destruct (front ++ [lp]) as [|h2 t2] eqn:Hrest.
    + destruct front; discriminate.
    + change (separated (f :: h2 :: t2))
        with ((falsy (glm.text f) || falsy (glm.text h2)) && separated (h2 :: t2))
        in Hs.
      apply andb_true_iff in Hs as [Hb Hs]. simpl. rewrite Hb.
      rewrite <- Hrest in Hs.
      rewrite (IH lp h2 t2 more Hs Hrest). reflexivity.
Qed.

(** Merging merged parts with more parts is merging all the parts. *)
Lemma merge_from_merged p0 ps h t more :
  merge_from p0 ps = h :: t ->
  merge_from h (t ++ more) = merge_from p0 (ps ++ more).
Proof.
  intros Hm.
  destruct (merge_from_app ps p0) as (front & lp & Hsplit & _ & _ & _ & _ & Happ).
  rewrite Happ. apply merge_separated.
  - rewrite <- Hsplit. apply merge_from_separated.
  - rewrite <- Hsplit. exact Hm.
Qed.

Lemma join_contents_assoc Cs cg Ms :
  _join_contents Cs = Ok cg ->
  _join_contents (cg :: Ms) = _join_contents (Cs ++ Ms).
Proof.
  intros H.
  destruct (join_contents_ok _ _ H) as (c0 & rest & p0 & ps & -> & Hall & Hp & ->).
  unfold _join_contents.
  change ((c0 :: rest) ++ Ms) with (c0 :: (rest ++ Ms)).
  cbv beta iota zeta. cbn [glm.role].
  change (c0 :: rest ++ Ms) with ((c0 :: rest) ++ Ms).
  rewrite forallb_app, Hall.
  change (forallb ?f (?x :: Ms)) with (f x && forallb f Ms). cbn [glm.role].
  rewrite String.eqb_refl. simpl andb.
  destruct (forallb _ Ms); [|reflexivity].
  rewrite !all_parts_concat in *. rewrite map_app, concat_app, Hp.
  simpl map. simpl concat.
  destruct (merge_from_head ps p0) as (h & t & Hm & _).
  rewrite Hm. simpl app. rewrite !merge_parts_cons.
  rewrite (merge_from_merged p0 ps h t _ Hm). reflexivity.
Qed.

Lemma last_app_cons {A} (G : list A) : forall m M d d',
  last (G ++ m :: M) d = last (m :: M) d'.
Proof.
  induction G as [|a G IH]; intros m M d d'.
  - simpl app. rewrite !last_cons. reflexivity.
  - change ((a :: G) ++ m :: M) with (a :: (G ++ m :: M)).
    rewrite last_cons. apply IH.
Qed.

Lemma join_candidates_assoc G g M :
  _join_candidates G = Ok g ->
  _join_candidates (g :: M) = _join_candidates (G ++ M).
Proof.
  intros H.
  destruct (join_candidates_ok _ _ H) as (c0 & rest & content & -> & Hall & Hc & ->).
  unfold _join_candidates.
  change ((c0 :: rest) ++ M) with (c0 :: (rest ++ M)).
  cbv beta iota zeta. cbn [glm.index].
  change (c0 :: rest ++ M) with ((c0 :: rest) ++ M).
  rewrite forallb_app, Hall.
  change (forallb ?f (?x :: M)) with (f x && forallb f M). cbn [glm.index].
  rewrite Z.eqb_refl. simpl andb.
  destruct (forallb _ M); [|reflexivity].
  change (map glm.content (?x :: M)) with (glm.content x :: map glm.content M).
  cbn [glm.content].
  rewrite (join_contents_assoc _ _ (map glm.content M) Hc), <- map_app.
  destruct (_join_contents (map glm.content ((c0 :: rest) ++ M))) as [joined|e];
    [|reflexivity].
  simpl bind. f_equal. f_equal.
  - destruct M as [|m M].
    + rewrite app_nil_r. reflexivity.
    + f_equal. exact (eq_sym (last_app_cons (c0 :: rest) m M c0 _)).
  - change (map glm.safety_ratings (?x :: M))
      with (glm.safety_ratings x :: map glm.safety_ratings M).
    cbn [glm.safety_ratings]. rewrite join_safety_assoc.
    simpl. rewrite ?map_app. reflexivity.
  - change (map glm.citation_metadata (?x :: M))
      with (glm.citation_metadata x :: map glm.citation_metadata M).
    cbn [glm.citation_metadata]. rewrite join_citations_assoc.
    simpl. rewrite ?map_app. reflexivity.
Qed.

Lemma join_candidate_lists_assoc candidate_lists joined more :
  _join_candidate_lists candidate_lists = Ok joined ->
  _join_candidate_lists [joined; more]
  = _join_candidate_lists (candidate_lists ++ [more]).
Proof.
  intros Hj.
  destruct (join_candidate_lists_ok _ _ Hj) as [Hf Hidx].
  rewrite !join_candidate_lists_by_index.
  rewrite concat_app. simpl concat. rewrite !app_nil_r.
  set (A := concat candidate_lists) in *.
  destruct (indices_spec A) as [HsA HmA].
  destruct (indices_spec (joined ++ more)) as [Hs1 Hm1].
  destruct (indices_spec (A ++ more)) as [Hs2 Hm2].
  assert (Hsame : indices (joined ++ more) = indices (A ++ more)).
  { apply strictly_sorted_unique; [assumption..|].
    intros k. rewrite Hm1, Hm2, !map_app, !in_app_iff, Hidx, HmA.
    reflexivity. }
  rewrite Hsame. apply mapM_ext_in. intros k _.
  rewrite !filter_app.
  destruct (in_dec Z.eq_dec k (indices A)) as [Hin|Hnin].
  - destruct (Forall2_In_l _ _ _ _ Hf Hin) as (g & Hg & Hjoin).
    assert (Hgk := join_candidates_index _ _ _ Hjoin).
    assert (Hone : filter (has_index k) joined = [g]).
    { rewrite <- Hgk. apply filter_has_index_unique; [|exact Hg].
      rewrite Hidx. apply strictly_sorted_NoDup. exact HsA. }
    rewrite Hone. simpl app. apply join_candidates_assoc. exact Hjoin.
  - assert (H1 : filter (has_index k) joined = []).
    { apply filter_has_index_absent. intros x Hx E. apply Hnin.
      rewrite <- Hidx, <- E. apply in_map. exact Hx. }
    assert (H2 : filter (has_index k) A = []).
    { apply filter_has_index_absent. intros x Hx E. apply Hnin.
      apply HmA. rewrite <- E. apply in_map. exact Hx. }
    rewrite H1, H2. reflexivity.
Qed.

(** Joining the join of some chunks with one more chunk is joining them
    all, the outcome included when it is an exception. *)
Lemma join_chunks_assoc chunks joined item :
  _join_chunks chunks = Ok joined ->
  _join_chunks [joined; item] = _join_chunks (chunks ++ [item]).
Proof.
  intros Hj.
  destruct (join_chunks_ok _ _ Hj) as (first & rest & -> & Hc & Hpf).
  unfold _join_chunks. rewrite map_app.
  change (map glm.candidates [joined; item])
    with [glm.candidates joined; glm.candidates item].
  change (map glm.candidates [item]) with [glm.candidates item].
  rewrite (join_candidate_lists_assoc _ _ (glm.candidates item) Hc).
  destruct (_join_candidate_lists
              (map glm.candidates (first :: rest) ++ [glm.candidates item]))
    as [cs|e]; [|reflexivity].
  simpl. rewrite Hpf. reflexivity.
Qed.

Lemma accumulate_is_join rest : forall chunks joined merged,
  _join_chunks chunks = Ok joined ->
  accumulate joined rest = Ok merged ->
  _join_chunks (chunks ++ rest) = Ok merged.
Proof.
  induction rest as [|item rest IH]; intros chunks joined merged Hj Ha.
  - unfold accumulate in Ha. simpl in Ha. injection Ha as <-.
    rewrite app_nil_r. exact Hj.
  - rewrite accumulate_cons in Ha.
    destruct (_join_chunks [joined; item]) as [j|e] eqn:Hstep; [|discriminate].
    simpl in Ha.
    replace (chunks ++ item :: rest) with ((chunks ++ [item]) ++ rest)
      by (rewrite <- app_assoc; reflexivity).
    apply (IH _ j); [|exact Ha].
    rewrite <- (join_chunks_assoc _ _ _ Hj). exact Hstep.
Qed.

Lemma accumulate_two_is_join first second rest merged :
  accumulate first (second :: rest) = Ok merged ->
  _join_chunks (first :: second :: rest) = Ok merged.
Proof.
  intros Ha. rewrite accumulate_cons in Ha.
  destruct (_join_chunks [first; second]) as [j|e] eqn:Hstep; [|discriminate].
  exact (accumulate_is_join rest [first; second] j merged Hstep Ha).
Qed.

(** ** The running result *)

(** C1 (as the code has it): for a sequence of at least two partial
    messages, when the incremental left fold of the iteration (the result
    starts as the first message; at each pull the result becomes
    [_join_chunks [result; item]]) completes without raising, its result is
    the one [_join_chunks] gives when applied once to the whole sequence in
    arrival order. *)
Theorem incremental_join_is_one_join
    (first second : glm.GenerateContentResponse)
    (rest : list glm.GenerateContentResponse)
    (merged : glm.GenerateContentResponse) :
  accumulate first (second :: rest) = Ok merged ->
  _join_chunks (first :: second :: rest) = Ok merged.
Proof.
  exact (accumulate_two_is_join first second rest merged).
Qed.

Lemma incremental_join_is_one_join_witness :
  accumulate Samples.hello [Samples.world; Samples.world]
  = Ok (Samples.message
          [Samples.candidate 0 "model"
             [glm.Part_text "Hello, world!world!"] 1] 0) /\
  _join_chunks [Samples.hello; Samples.world; Samples.world]
  = Ok (Samples.message
          [Samples.candidate 0 "model"
             [glm.Part_text "Hello, world!world!"] 1] 0).
Proof.
  split; [reflexivity|].
  exact (incremental_join_is_one_join Samples.hello Samples.world
           [Samples.world] _ eq_refl).
Defined.

(** C1, counterexamples. A sequence of one message: the incremental result
    is the message itself, where [_join_chunks] raises for a candidate
    without parts and merges two text parts in a row. A sequence of three
    messages: the fold raises at the second message, where a candidate has
    had no part yet, and [_join_chunks] on the whole sequence returns. *)
Lemma incremental_join_differs :
  (accumulate Samples.bare [] = Ok Samples.bare /\
   _join_chunks [Samples.bare] = Raise IndexError) /\
  (accumulate Samples.split_text [] = Ok Samples.split_text /\
   _join_chunks [Samples.split_text]
   = Ok (Samples.message
           [Samples.candidate 0 "model" [glm.Part_text "ab"] 0] 0) /\
   _join_chunks [Samples.split_text] <> accumulate Samples.split_text []) /\
  (accumulate Samples.bare [Samples.bare; Samples.hello] = Raise IndexError /\
   _join_chunks [Samples.bare; Samples.bare; Samples.hello]
   = Ok (Samples.message
           [Samples.candidate 0 "model" [glm.Part_text "Hello, "] 0] 0)).
Proof.
  repeat split; discriminate.
Qed.

(** ** Finish reasons *)


Lemma one_role_per_index_spec all :
  one_role_per_index all = true <->
  forall x y, In x all -> In y all -> glm.index y = glm.index x ->
              glm.role (glm.content y) = glm.role (glm.content x).
Proof.
  unfold one_role_per_index. rewrite forallb_forall. split.
  - intros H x y Hx Hy Hi. specialize (H x Hx).
    rewrite forallb_forall in H. specialize (H y Hy).
    unfold has_index in H. rewrite Hi, Z.eqb_refl in H. simpl in H.
    apply String.eqb_eq. exact H.
  - intros H x Hx. apply forallb_forall. intros y Hy.
    unfold has_index. destruct (Z.eqb_spec (glm.index y) (glm.index x)) as [E|N];
      [|reflexivity].
    simpl. apply String.eqb_eq. apply H; assumption.
Qed.

Lemma a_part_per_index_spec all :
  a_part_per_index all = true <->
  forall x, In x all ->
            exists y, In y all /\ glm.index y = glm.index x /\
                      has_part y = true.
Proof.
  unfold a_part_per_index. rewrite forallb_forall. split.
  - intros H x Hx. specialize (H x Hx). apply existsb_exists in H.
    destruct H as (y & Hy & Hb). apply andb_true_iff in Hb as [Hi Hp].
    exists y. split; [exact Hy|]. split; [apply Z.eqb_eq; exact Hi|exact Hp].
  - intros H x Hx. destruct (H x Hx) as (y & Hy & Hi & Hp).
    apply existsb_exists. exists y. split; [exact Hy|].
    apply andb_true_iff. split; [apply Z.eqb_eq; exact Hi|exact Hp].
Qed.






(** [_join_chunks] returns only on such chunks. *)
Lemma join_chunks_returns_only chunks merged :
  _join_chunks chunks = Ok merged ->
  one_role_per_index (all_candidates chunks) = true /\
  a_part_per_index (all_candidates chunks) = true.
Proof.
  intros Hj. destruct (join_chunks_ok _ _ Hj) as (first & rest & _ & Hc & _).
  destruct (join_candidate_lists_ok _ _ Hc) as [Hf _].
  fold (all_candidates chunks) in Hf.
  assert (Hgroup : forall x, In x (all_candidates chunks) ->
            exists c0 tl content,
              filter (has_index (glm.index x)) (all_candidates chunks)
              = c0 :: tl /\
              _join_contents (map glm.content (c0 :: tl)) = Ok content).
  { intros x Hx.
    assert (Hi : In (glm.index x) (indices (all_candidates chunks))).
    { apply (proj2 (indices_spec _)). apply in_map. exact Hx. }
    destruct (Forall2_In_l _ _ _ _ Hf Hi) as (g & _ & Hg).
    destruct (join_candidates_ok _ _ Hg) as (c0 & tl & content & HG & _ & Hcs & _).
    exists c0, tl, content. split; [exact HG|]. rewrite <- HG. exact Hcs. }
  split.
  - apply one_role_per_index_spec. intros x y Hx Hy Hi.
    destruct (Hgroup x Hx) as (c0 & tl & content & HG & Hcs).
    destruct (join_contents_ok _ _ Hcs) as (d0 & drest & p0 & ps & _ & Hall & _).
    rewrite forallb_forall in Hall.
    assert (Hmem : forall z, In z (all_candidates chunks) ->
                     glm.index z = glm.index x ->
                     glm.role (glm.content z) = glm.role d0).
    { intros z Hz Hzi. apply String.eqb_eq. apply Hall. apply in_map.
      rewrite <- HG. apply filter_In. split; [exact Hz|].
      apply Z.eqb_eq. exact Hzi. }
    rewrite (Hmem x Hx eq_refl), (Hmem y Hy Hi). reflexivity.
  - apply a_part_per_index_spec. intros x Hx.
    destruct (Hgroup x Hx) as (c0 & tl & content & HG & Hcs).
    destruct (join_contents_ok _ _ Hcs) as (d0 & drest & p0 & ps & _ & _ & Hp & _).
    rewrite all_parts_concat in Hp.
    assert (Hin : In p0 (concat (map glm.parts (map glm.content (c0 :: tl)))))
      by (rewrite Hp; left; reflexivity).
    apply in_concat in Hin as (l & Hl & Hp0).
    apply in_map_iff in Hl as (d & <- & Hd).
    apply in_map_iff in Hd as (y & <- & Hy).
    rewrite <- HG in Hy. apply filter_In in Hy as [Hy Hyi].
    exists y. split; [exact Hy|]. split; [apply Z.eqb_eq; exact Hyi|].
    unfold has_part. destruct (glm.parts (glm.content y)); [destruct Hp0|reflexivity].
Qed.


(** The candidate [_join_candidate_lists] returns for an index is the join
    of the candidates of that index. *)
Lemma joined_is_join_of_index candidate_lists joined g :
  _join_candidate_lists candidate_lists = Ok joined ->
  In g joined ->
  _join_candidates (filter (has_index (glm.index g)) (concat candidate_lists))
  = Ok g.
Proof.
  intros Hj Hg. destruct (join_candidate_lists_ok _ _ Hj) as [Hf _].
  destruct (Forall2_In_r _ _ _ _ Hf Hg) as (k & _ & Hk).
  rewrite (join_candidates_index _ _ _ Hk). exact Hk.
Qed.




(** * Further properties *)

(** ** The quick accessors *)

(** X1: on a done accumulator, [text] returns a string exactly when the
    result holds one candidate whose content is one text part, and the
    string is that part's text; it raises [IndexError] exactly when the sole
    candidate has no part; every other shape raises [ValueError]. *)
Theorem text_of_done_accumulator (self : GenerateContentResponse) :
  _done self = true ->
  (forall s, text self = Ok s <->
             exists c, glm.candidates (_result self) = [c] /\
                       glm.parts (glm.content c) = [glm.Part_text s]) /\
  (text self = Raise IndexError <->
   exists c, glm.candidates (_result self) = [c] /\
             glm.parts (glm.content c) = []) /\
  (forall e, text self = Raise e -> e = IndexError \/ e = ValueError).
Proof.
  intros Hd. unfold text, parts, candidates. rewrite Hd. simpl.
  destruct (glm.candidates (_result self)) as [|c0 [|c1 cs]]; simpl.
  - split; [|split].
    + intros s. split; [discriminate|]. intros (c & H & _). discriminate.
    + split; [discriminate|]. intros (c & H & _). discriminate.
    + intros e H. injection H as <-. right. reflexivity.
  - destruct (glm.parts (glm.content c0)) as [|p0 [|p1 ps]] eqn:Hp; simpl.
    + split; [|split].
      * intros s. split; [discriminate|].
        intros (c & H & Hc). injection H as <-. rewrite Hp in Hc. discriminate.
      * split; [|reflexivity]. intros _. exists c0. split; [reflexivity|exact Hp].
      * intros e H. injection H as <-. left. reflexivity.
    + destruct p0 as [s0|b|]; simpl.
      * split; [|split].
        -- intros s. split.
           ++ intros H. injection H as <-. exists c0. split; [reflexivity|exact Hp].
           ++ intros (c & H & Hc). injection H as <-. rewrite Hp in Hc.
              injection Hc as <-. reflexivity.
        -- split; [discriminate|].
           intros (c & H & Hc). injection H as <-. rewrite Hp in Hc. discriminate.
        -- discriminate.
      * split; [|split].
        -- intros s. split; [discriminate|].
           intros (c & H & Hc). injection H as <-. rewrite Hp in Hc. discriminate.
        -- split; [discriminate|].
           intros (c & H & Hc). injection H as <-. rewrite Hp in Hc. discriminate.
        -- intros e H. injection H as <-. right. reflexivity.
      * split; [|split].
        -- intros s. split; [discriminate|].
           intros (c & H & Hc). injection H as <-. rewrite Hp in Hc. discriminate.
        -- split; [discriminate|].
           intros (c & H & Hc). injection H as <-. rewrite Hp in Hc. discriminate.
        -- intros e H. injection H as <-. right. reflexivity.
    + split; [|split].
      * intros s. split; [discriminate|].
        intros (c & H & Hc). injection H as <-. rewrite Hp in Hc. discriminate.
      * split; [discriminate|].
        intros (c & H & Hc). injection H as <-. rewrite Hp in Hc. discriminate.
      * intros e H. injection H as <-. right. reflexivity.
  - split; [|split].
    + intros s. split; [discriminate|]. intros (c & H & _). discriminate.
    + split; [discriminate|]. intros (c & H & _). discriminate.
    + intros e H. injection H as <-. right. reflexivity.
Qed.

Lemma text_of_done_accumulator_witness :
  text (from_response Samples.hello) = Ok "Hello, "%string /\
  text (from_response Samples.bare) = Raise IndexError.
Proof.
  split.
  - apply (proj1 (text_of_done_accumulator (from_response Samples.hello) eq_refl)).
    eexists. split; reflexivity.
  - apply (proj1 (proj2 (text_of_done_accumulator
                           (from_response Samples.bare) eq_refl))).
    eexists. split; reflexivity.
Defined.

(** X2: an accumulator built by [from_iterator] from a producer that never
    fails, with a first message that is not blocked and joins that do not
    raise, refuses [candidates], [parts] and [text] with
    [IncompleteIterationError]; [resolve] then returns, and on the
    accumulator it leaves [candidates] gives the candidates of the running
    result and a second [resolve] changes nothing. *)
Theorem accessors_wait_for_resolve
    (first : glm.GenerateContentResponse)
    (rest : list glm.GenerateContentResponse)
    (merged : glm.GenerateContentResponse) (acc : GenerateContentResponse) :
  glm.block_reason (glm.prompt_feedback first) = 0%Z ->
  accumulate first rest = Ok merged ->
  fst (from_iterator (iter (first :: rest))) = Ok acc ->
  candidates acc = Raise IncompleteIterationError /\
  parts acc = Raise IncompleteIterationError /\
  text acc = Raise IncompleteIterationError /\
  exists resolved,
    resolve acc = Some (Returned, resolved) /\
    candidates resolved = Ok (glm.candidates merged) /\
    resolve resolved = Some (Returned, resolved).
Proof.
  intros Hz Ha Hacc. unfold iter in Hacc. simpl map in Hacc.
  rewrite from_iterator_item in Hacc. simpl in Hacc. injection Hacc as <-.
  rewrite (init_not_blocked _ _ _ Hz).
  split; [reflexivity|]. split; [reflexivity|]. split; [reflexivity|].
  unfold resolve at 1. simpl _done. cbv iota.
  rewrite (first_pass_to_end rest first first merged 1 Ha).
  eexists. split; [reflexivity|]. split; reflexivity.
Qed.

Lemma accessors_wait_for_resolve_witness :
  exists acc resolved,
    fst (from_iterator (iter [Samples.hello; Samples.world])) = Ok acc /\
    text acc = Raise IncompleteIterationError /\
    resolve acc = Some (Returned, resolved) /\
    text resolved = Ok "Hello, world!"%string.
Proof.
  destruct (accessors_wait_for_resolve Samples.hello [Samples.world]
              (Samples.message
                 [Samples.candidate 0 "model"
                    [glm.Part_text "Hello, world!"] 1] 0)
              _ eq_refl eq_refl eq_refl)
    as (_ & _ & Ht & resolved & Hr & Hc & _).
  eexists. exists resolved.
  split; [reflexivity|]. split; [exact Ht|]. split; [exact Hr|].
  unfold resolve in Hr. simpl in Hr. injection Hr as <-. reflexivity.
Defined.

(** ** Looking one item ahead *)

Lemma consume_yield k self n item self' :
  loop_turn self n = Yield item self' ->
  consume (S k) self n = taken_before [item] (consume k self' (S n)).
Proof.
  intros H. simpl. rewrite H.
  destruct (consume k self' (S n)) as [[items s] st]. reflexivity.
Qed.

Lemma taken_before_app ys zs c :
  taken_before (ys ++ zs) c = taken_before ys (taken_before zs c).
Proof. destruct c as [[items s] st]. simpl. rewrite app_assoc. reflexivity. Qed.

Lemma taken_before_nil c : taken_before [] c = c.
Proof. destruct c as [[items s] st]. reflexivity. Qed.

Lemma consume_items items : forall front c res res' future k more,
  accumulate res items = Ok res' ->
  exists ys c',
    c :: items = ys ++ [c'] /\
    consume (length items + more)
            (pending_state (front ++ [c]) res (map Ok items ++ future) k)
            (length front)
    = taken_before (map from_response ys)
        (consume more
           (pending_state ((front ++ ys) ++ [c']) res' future (length items + k))
           (length (front ++ ys))).
Proof.
  induction items as [|item items IH]; intros front c res res' future k more Hacc.
  - exists [], c. split; [reflexivity|]. simpl.
    unfold accumulate in Hacc; simpl in Hacc; injection Hacc as <-.
    rewrite app_nil_r, taken_before_nil. reflexivity.
  - rewrite accumulate_cons in Hacc.
    destruct (_join_chunks [res; item]) as [joined|e] eqn:Hj; [|discriminate].
    simpl in Hacc.
    destruct (IH (front ++ [c]) item joined res' future (S k) more Hacc)
      as (ys & c' & Hsplit & Hrun).
    exists (c :: ys), c'. split; [simpl; rewrite Hsplit; reflexivity|].
    change (length (item :: items) + more) with (S (length items + more)).
    change (map Ok (item :: items) ++ future)
      with (Ok item :: (map Ok items ++ future)).
    rewrite (consume_yield _ _ _ _ _
               (turn_pull_item front c res item joined _ k Hj)).
    replace (S (length front)) with (length (front ++ [c]))
      by (rewrite length_app; simpl; lia).
    rewrite Hrun.
    replace (length items + S k) with (length (item :: items) + k)
      by (simpl; lia).
    replace ((front ++ [c]) ++ ys) with (front ++ c :: ys)
      by (rewrite <- app_assoc; reflexivity).
    change (map from_response (c :: ys))
      with ([from_response c] ++ map from_response ys).
    rewrite taken_before_app. reflexivity.
Qed.



(** ** Restarting an iteration *)

Lemma turn_replay before c after res future k :
  after <> [] ->
  loop_turn (pending_state (before ++ c :: after) res future k) (length before)
  = Yield (from_response c) (pending_state (before ++ c :: after) res future k).
Proof.
  intros Hne. unfold loop_turn, error_to_raise, pending_state; simpl.
  replace (length (before ++ c :: after) <=? length before + 1) with false.
  - simpl. rewrite nth_error_app2 by lia. rewrite Nat.sub_diag. reflexivity.
  - symmetry. apply Nat.leb_gt. rewrite length_app. simpl.
    destruct after; [contradiction|simpl; lia].
Qed.

(** The turns that replay buffered chunks pull nothing. *)
Lemma loop_replay pre : forall before c res future k fuel,
  loop (length pre + fuel)
       (pending_state (before ++ pre ++ [c]) res future k) (length before)
  = prepend (map from_response pre)
      (loop fuel (pending_state (before ++ pre ++ [c]) res future k)
            (length (before ++ pre))).
Proof.
  induction pre as [|p pre IH]; intros before c res future k fuel.
  - simpl. rewrite app_nil_r, prepend_nil. reflexivity.
  - change (length (p :: pre) + fuel) with (S (length pre + fuel)).
    change ((p :: pre) ++ [c]) with (p :: (pre ++ [c])).
    rewrite (loop_yield _ _ _ _ _
               (turn_replay before p (pre ++ [c]) res future k
                  ltac:(destruct pre; discriminate))).
    replace (before ++ p :: pre ++ [c]) with ((before ++ [p]) ++ pre ++ [c])
      by (rewrite <- app_assoc; reflexivity).
    replace (S (length before)) with (length (before ++ [p]))
      by (rewrite length_app; simpl; lia).
    rewrite IH.
    replace ((before ++ [p]) ++ pre) with (before ++ p :: pre)
      by (rewrite <- app_assoc; reflexivity).
    change (map from_response (p :: pre))
      with ([from_response p] ++ map from_response pre).
    rewrite prepend_app. reflexivity.
Qed.

(** A pending accumulator that holds the chunks [pre ++ [c]] with nothing
    latched, whose producer still has the items [more] and then ends: a
    full pass first replays the buffered chunks, then yields the items it
    pulls, and returns. *)
Lemma restart_from_pending
    (pre : list glm.GenerateContentResponse) (c res res' : glm.GenerateContentResponse)
    (more : list glm.GenerateContentResponse) (k : nat) :
  accumulate res more = Ok res' ->
  __iter__ {| _done := false;
              _iterator := Some {| pending := map Ok more; calls := k |};
              _result := res;
              _chunks := pre ++ [c];
              _error := None |}
  = Some {| yielded := map from_response (pre ++ c :: more);
            how := Returned;
            self_after :=
              {| _done := true;
                 _iterator := Some {| pending := [];
                                      calls := S (length more + k) |};
                 _result := res';
                 _chunks := pre ++ c :: more;
                 _error := None |} |}.
Proof.
  intros Ha. fold (pending_state (pre ++ [c]) res (map Ok more) k).
  assert (Hiter : __iter__ (pending_state (pre ++ [c]) res (map Ok more) k)
                  = loop (length pre + (length more + (2 + 1)))
                         (pending_state ([] ++ pre ++ [c]) res (map Ok more) k)
                         (length (@nil glm.GenerateContentResponse))).
  { unfold __iter__, turns_left. cbn -[loop Nat.add].
    destruct (pre ++ [c]) eqn:E; [destruct pre; discriminate|].
    rewrite <- E. rewrite length_app, length_map. simpl length.
    f_equal. lia. }
  rewrite Hiter, loop_replay. simpl app.
  rewrite (run_to_end more pre c res res' k 1 Ha). simpl.
  rewrite map_app. reflexivity.
Qed.

Lemma accumulate_app items : forall first more,
  accumulate first (items ++ more)
  = (running <- accumulate first items ;; accumulate running more).
Proof.
  induction items as [|item items IH]; intros first more; [reflexivity|].
  change ((item :: items) ++ more) with (item :: (items ++ more)).
  rewrite !accumulate_cons.
  destruct (_join_chunks [first; item]) as [joined|e]; simpl; [|reflexivity].
  apply IH.
Qed.

(** X4: an iteration that was abandoned can be started again. For an
    accumulator built by [from_iterator] from a finite producer that never
    fails, whose first message is not blocked and whose joins do not raise:
    when a consumer has taken the snapshots of [first :: taken] and dropped
    the generator while the items [ahead :: later] were still to be
    yielded, a new full pass of [__iter__] yields a snapshot of every
    message from the first one on and returns, and the accumulator is then
    done with the running result over all the messages. The new pass
    replays the buffered chunks without pulling: over both passes [next] is
    called once for each message and once more to find the end. *)
Theorem restart_after_abandoning
    (first : glm.GenerateContentResponse)
    (taken : list glm.GenerateContentResponse)
    (ahead : glm.GenerateContentResponse)
    (later : list glm.GenerateContentResponse)
    (merged : glm.GenerateContentResponse) (acc : GenerateContentResponse) :
  glm.block_reason (glm.prompt_feedback first) = 0%Z ->
  accumulate first (taken ++ ahead :: later) = Ok merged ->
  fst (from_iterator (iter (first :: taken ++ ahead :: later))) = Ok acc ->
  exists abandoned,
    consume (S (length taken)) acc 0
    = (map from_response (first :: taken), abandoned, None) /\
    _done abandoned = false /\
    __iter__ abandoned
    = Some {| yielded :=
                map from_response (first :: taken ++ ahead :: later);
              how := Returned;
              self_after :=
                {| _done := true;
                   _iterator :=
                     Some {| pending := [];
                             calls :=
                               S (length (first :: taken ++ ahead :: later)) |};
                   _result := merged;
                   _chunks := first :: taken ++ ahead :: later;
                   _error := None |} |}.
Proof.
  intros Hz Ha Hacc.
  replace (taken ++ ahead :: later) with ((taken ++ [ahead]) ++ later) in Ha
    by (rewrite <- app_assoc; reflexivity).
  rewrite accumulate_app in Ha.
  destruct (accumulate first (taken ++ [ahead])) as [res|e] eqn:Hres;
    [|discriminate].
  simpl in Ha.
  unfold iter in Hacc. simpl map in Hacc.
  rewrite from_iterator_item in Hacc. simpl in Hacc. injection Hacc as <-.
  rewrite (init_not_blocked _ _ _ Hz).
  destruct (consume_items (taken ++ [ahead]) [] first first res
              (map Ok later) 1 0 Hres) as (ys & c' & Hsplit & Hrun).
  assert (Hys : ys = first :: taken /\ c' = ahead).
  { change (first :: taken ++ [ahead]) with ((first :: taken) ++ [ahead])
      in Hsplit.
    apply app_inj_tail in Hsplit as [<- <-]. split; reflexivity. }
  destruct Hys as [-> ->].
  exists (pending_state ((first :: taken) ++ [ahead]) res (map Ok later)
                        (length taken + 2)).
  split; [|split; [reflexivity|]].
  - replace (map Ok (taken ++ ahead :: later))
      with (map (@Ok glm.GenerateContentResponse) (taken ++ [ahead])
            ++ map Ok later)
      by (rewrite <- map_app, <- app_assoc; reflexivity).
    replace (S (length taken)) with (length (taken ++ [ahead]) + 0)
      by (rewrite length_app; simpl; lia).
    refine (eq_trans Hrun _). simpl. rewrite app_nil_r.
    rewrite length_app. simpl.
    replace (length taken + 1 + 1) with (length taken + 2) by lia.
    reflexivity.
  - refine (eq_trans
              (restart_from_pending (first :: taken) ahead res merged later
                 (length taken + 2) Ha) _).
    replace ((first :: taken) ++ ahead :: later)
      with (first :: taken ++ ahead :: later) by reflexivity.
    do 3 f_equal. simpl. rewrite length_app. simpl.
    do 2 f_equal. lia.
Qed.

Lemma restart_after_abandoning_witness :
  exists acc abandoned,
    fst (from_iterator
           (iter [Samples.hello; Samples.world; Samples.world])) = Ok acc /\
    consume 1 acc 0 = ([from_response Samples.hello], abandoned, None) /\
    _done abandoned = false /\
    __iter__ abandoned
    = Some {| yielded :=
                map from_response
                    [Samples.hello; Samples.world; Samples.world];
              how := Returned;
              self_after :=
                {| _done := true;
                   _iterator := Some {| pending := []; calls := 4 |};
                   _result :=
                     Samples.message
                       [Samples.candidate 0 "model"
                          [glm.Part_text "Hello, world!world!"] 1] 0;
                   _chunks := [Samples.hello; Samples.world; Samples.world];
                   _error := None |} |}.
Proof.
  eexists.
  destruct (restart_after_abandoning Samples.hello [] Samples.world
              [Samples.world]
              (Samples.message
                 [Samples.candidate 0 "model"
                    [glm.Part_text "Hello, world!world!"] 1] 0)
              _ eq_refl eq_refl eq_refl)
    as (abandoned & Hc & Hd & Hi).
  exists abandoned. split; [reflexivity|].
  split; [exact Hc|]. split; [exact Hd|exact Hi].
Defined.

(** ** Exceptions that are not [Exception]s *)




(** ** What every run keeps *)

Lemma skipn_nth_error {A} (l : list A) : forall n c,
  nth_error l n = Some c -> skipn n l = c :: skipn (S n) l.
Proof.
  induction l as [|a l IH]; intros [|n] c H; simpl in *; try discriminate.
  - injection H as <-. reflexivity.
  - apply IH. exact H.
Qed.

Lemma loop_turn_effect self n :
  match loop_turn self n with
  | Yield item self' =>
      (exists more, _chunks self' = _chunks self ++ more) /\
      (exists c, nth_error (_chunks self') n = Some c /\ item = from_response c) /\
      (_done self = true -> self' = self) /\
      calls_made self <= calls_made self'
  | Stop s self' =>
      (exists more, _chunks self' = _chunks self ++ more) /\
      (_done self = true -> self' = self) /\
      calls_made self <= calls_made self'
  end.
Proof.
  assert (Hsame : forall cs : list glm.GenerateContentResponse,
             exists more, cs = cs ++ more)
    by (intros cs; exists []; rewrite app_nil_r; reflexivity).
  unfold loop_turn, look_ahead, pull, next, calls_made.
  destruct self as [d it res cs err].
  destruct (error_to_raise _); [simpl; repeat split; auto|]. simpl.
  destruct (length cs <=? n + 1).
  - destruct d; [repeat split; auto|].
    destruct it as [[p k]|]; simpl.
    + destruct p as [|[item'|e] p]; simpl.
      * destruct (nth_error cs n) eqn:Hn; simpl;
          repeat split; auto; try discriminate. eexists; split; eauto.
      * destruct (_join_chunks [res; item']); simpl.
        -- destruct (nth_error (cs ++ [item']) n) eqn:Hn; simpl;
             repeat split; eauto; try discriminate.
        -- repeat split; eauto; discriminate.
      * destruct (is_StopIteration e); simpl;
          [|destruct (is_Exception e); simpl].
        -- destruct (nth_error cs n) eqn:Hn; simpl;
             repeat split; auto; try discriminate. eexists; split; eauto.
        -- destruct (nth_error cs n) eqn:Hn; simpl;
             repeat split; auto; try discriminate. eexists; split; eauto.
        -- repeat split; auto; discriminate.
    + destruct (nth_error cs n) eqn:Hn; simpl;
        repeat split; auto; try discriminate. eexists; split; eauto.
  - simpl. destruct (nth_error cs n) eqn:Hn; simpl; repeat split; auto.
    eexists; split; eauto.
Qed.

Lemma loop_keeps fuel : forall self n r,
  loop fuel self n = Some r ->
  (exists more, _chunks (self_after r) = _chunks self ++ more) /\
  yielded r
  = map from_response
        (firstn (length (yielded r)) (skipn n (_chunks (self_after r)))) /\
  (_done self = true -> self_after r = self) /\
  calls_made self <= calls_made (self_after r).
Proof.
  induction fuel as [|fuel IH]; intros self n r Hr; [discriminate|].
  simpl in Hr. generalize (loop_turn_effect self n).
  destruct (loop_turn self n) as [item self'|s self'].
  - intros ((more & Hmore) & (c & Hc & ->) & Hdone & Hcalls).
    destruct (loop fuel self' (S n)) as [r'|] eqn:Hr'; [|discriminate].
    injection Hr as <-. simpl.
    destruct (IH self' (S n) r' Hr') as ((more' & Hmore') & Hy & Hdone' & Hcalls').
    split; [|split; [|split]].
    + exists (more ++ more'). rewrite Hmore', Hmore, app_assoc. reflexivity.
    + assert (Hn : nth_error (_chunks (self_after r')) n = Some c).
      { rewrite Hmore'. rewrite nth_error_app1; [exact Hc|].
        apply nth_error_Some. congruence. }
      rewrite (skipn_nth_error _ _ _ Hn). simpl. f_equal. exact Hy.
    + intros Hd. pose proof (Hdone Hd) as E. subst self'.
      apply Hdone'. exact Hd.
    + lia.
  - intros ((more & Hmore) & Hdone & Hcalls).
    injection Hr as <-. simpl. repeat split; auto. exists more. exact Hmore.
Qed.

(** X6: whatever the state of the accumulator and whatever the producer
    does, a run of [__iter__] only ever appends to the buffer, yields
    snapshots of the chunks at the front of the buffer it leaves, in their
    order, each a done accumulator over its single chunk, never undoes
    [next] calls, and leaves a done accumulator exactly as it was. *)
Theorem iteration_keeps (self : GenerateContentResponse) (r : run) :
  __iter__ self = Some r ->
  (exists more, _chunks (self_after r) = _chunks self ++ more) /\
  yielded r
  = map from_response (firstn (length (yielded r)) (_chunks (self_after r))) /\
  Forall (fun item => _done item = true /\ _iterator item = None) (yielded r) /\
  (_done self = true -> self_after r = self) /\
  calls_made self <= calls_made (self_after r).
Proof.
  intros Hr.
  assert (Hall : forall cs, Forall (fun item => _done item = true /\
                                               _iterator item = None)
                                   (map from_response cs)).
  { intros cs. apply Forall_forall. intros y Hy.
    apply in_map_iff in Hy as (c & <- & _). split; reflexivity. }
  assert (Hmain :
    (exists more, _chunks (self_after r) = _chunks self ++ more) /\
    yielded r
    = map from_response (firstn (length (yielded r)) (_chunks (self_after r))) /\
    (_done self = true -> self_after r = self) /\
    calls_made self <= calls_made (self_after r)).
  { unfold __iter__ in Hr. destruct (_done self) eqn:Hd.
    - injection Hr as <-. simpl. rewrite length_map, firstn_all.
      repeat split; auto. exists []. rewrite app_nil_r. reflexivity.
    - destruct (_chunks self) as [|c cs] eqn:Hc.
      + unfold pull in Hr. destruct (_iterator self) as [it|] eqn:Hit.
        * destruct (next it) as [[item|e] it'] eqn:Hnext.
          -- apply loop_keeps in Hr. simpl in Hr.
             destruct Hr as ((more & Hmore) & Hy & _ & Hcalls).
             rewrite Hc in Hmore. simpl in Hmore.
             split; [exists (item :: more); exact Hmore|].
             split; [exact Hy|]. split; [discriminate|].
             unfold calls_made in *. simpl in Hcalls. rewrite Hit.
             unfold next in Hnext. destruct (pending it);
               injection Hnext as _ <-; simpl in Hcalls; lia.
          -- injection Hr as <-. simpl. rewrite Hc.
             split; [exists []; reflexivity|]. split; [reflexivity|].
             split; [discriminate|].
             unfold calls_made. simpl. rewrite Hit.
             unfold next in Hnext. destruct (pending it);
               injection Hnext as _ <-; simpl; lia.
        * injection Hr as <-. simpl. rewrite Hc.
          split; [exists []; reflexivity|]. split; [reflexivity|].
          split; [discriminate|]. lia.
      + apply loop_keeps in Hr. rewrite Hc in Hr.
        destruct Hr as (Hmore & Hy & _ & Hcalls).
        split; [exact Hmore|]. split; [exact Hy|]. split; [discriminate|].
        exact Hcalls. }
  destruct Hmain as (H1 & H2 & H3 & H4).
  split; [exact H1|]. split; [exact H2|]. split; [|split; assumption].
  rewrite H2. apply Hall.
Qed.

Lemma iteration_keeps_witness :
  exists acc r,
    fst (from_iterator
           {| pending := [Ok Samples.hello; Ok Samples.stray]; calls := 0 |})
    = Ok acc /\
    __iter__ acc = Some r /\
    (exists more, _chunks (self_after r) = _chunks acc ++ more) /\
    calls_made acc <= calls_made (self_after r).
Proof.
  eexists. eexists. split; [reflexivity|]. split; [reflexivity|].
  destruct (iteration_keeps _ _
              (eq_refl : __iter__ (pending_state [Samples.hello] Samples.hello
                                     [Ok Samples.stray] 1) = Some _))
    as (H1 & _ & _ & _ & H4).
  split; [exact H1|exact H4].
Defined.

(** ** Termination *)

Lemma loop_bound fuel : forall self n r,
  loop fuel self n = Some r ->
  n <= reach self ->
  n + length (yielded r) <= reach self.
Proof.
  induction fuel as [|fuel IH]; intros self n r Hr Hn; [discriminate|].
  simpl in Hr. destruct (loop_turn self n) as [item self'|s self'] eqn:Ht.
  - apply loop_turn_yield in Ht as [Hlt Hle].
    destruct (loop fuel self' (S n)) as [r'|] eqn:Hr'; [|discriminate].
    injection Hr as <-. simpl.
    assert (Hn' : S n <= reach self') by (unfold reach at 1; lia).
    specialize (IH self' (S n) r' Hr' Hn'). lia.
  - injection Hr as <-. simpl. lia.
Qed.

(** X7: the generator stops from every state of the accumulator. The
    unbounded loop of [__iter__] ends (it returns or raises) as soon as the
    producer has nothing more to give, after yielding at most one snapshot
    for each buffered chunk and each outcome the producer still holds, and
    so does [resolve]. *)
Theorem iteration_terminates (self : GenerateContentResponse) :
  (exists r,
     __iter__ self = Some r /\
     length (yielded r)
     <= length (_chunks self)
        + match _iterator self with
          | Some it => length (pending it)
          | None => 0
          end) /\
  (exists how_and_self, resolve self = Some how_and_self).
Proof.
  split; [|apply resolve_total].
  destruct (iter_total self) as [r Hr]. exists r. split; [exact Hr|].
  unfold __iter__ in Hr. destruct (_done self) eqn:Hd.
  - injection Hr as <-. simpl. rewrite length_map. lia.
  - destruct (_chunks self) as [|c cs] eqn:Hc.
    + unfold pull in Hr. destruct (_iterator self) as [it|] eqn:Hit.
      * unfold next in Hr. destruct (pending it) as [|[item|e] p] eqn:Hp.
        -- injection Hr as <-. simpl. lia.
        -- apply loop_bound in Hr; [|lia].
           unfold reach in Hr. simpl in Hr. rewrite Hd, Hc in Hr.
           simpl in Hr. simpl. lia.
        -- injection Hr as <-. simpl. lia.
      * injection Hr as <-. simpl. lia.
    + apply loop_bound in Hr; [|lia].
      unfold reach in Hr. rewrite Hd, Hc in Hr. simpl in *. lia.
Qed.

(** ** Prompt feedback *)




(** ** The joined candidates *)

(** X9: the candidates [_join_candidate_lists] returns come in strictly
    increasing order of their indices, one for each index that occurs in
    the lists, and each is the join of the candidates of its own index in
    arrival order: candidates of other indices have no part in it. *)
Theorem joined_candidates_by_index
    (candidate_lists : list (list glm.Candidate)) (joined : list glm.Candidate) :
  _join_candidate_lists candidate_lists = Ok joined ->
  StronglySorted Z.lt (map glm.index joined) /\
  (forall k, In k (map glm.index joined) <->
             exists c, In c (concat candidate_lists) /\ glm.index c = k) /\
  (forall g, In g joined ->
             _join_candidates
               (filter (has_index (glm.index g)) (concat candidate_lists))
             = Ok g).
Proof.
  intros Hj. destruct (join_candidate_lists_ok _ _ Hj) as [Hf Hidx].
  destruct (indices_spec (concat candidate_lists)) as [Hs Hm].
  rewrite Hidx. split; [exact Hs|]. split.
  - intros k. rewrite Hm, in_map_iff. split; intros (c & H1 & H2); eauto.
  - intros g Hg. destruct (Forall2_In_r _ _ _ _ Hf Hg) as (k & _ & Hk).
    rewrite (join_candidates_index _ _ _ Hk). exact Hk.
Qed.

Lemma joined_candidates_by_index_witness :
  StronglySorted Z.lt
    (map glm.index
       [Samples.candidate 0 "model" [glm.Part_text "ab"] 0;
        Samples.candidate 1 "model" [glm.Part_text "c"] 0]).
Proof.
  exact (proj1 (joined_candidates_by_index
                  [ [Samples.candidate 1 "model" [glm.Part_text "c"] 0;
                     Samples.candidate 0 "model" [glm.Part_text "a"] 0];
                    [Samples.candidate 0 "model" [glm.Part_text "b"] 0] ]
                  _ eq_refl)).
Defined.

(** X10: the metadata of a candidate of the joined result, end to end. For
    a candidate [g] of [_join_chunks chunks], with [mentions] the
    candidates of its index in all the chunks in arrival order: its
    citation sources are those of the mentions put end to end, none
    dropped; its safety ratings have no category twice, and one of them is
    blocked exactly when a rating of its category in some mention is. *)
Theorem merged_candidate_metadata
    (chunks : list glm.GenerateContentResponse)
    (merged : glm.GenerateContentResponse) (g : glm.Candidate) :
  _join_chunks chunks = Ok merged ->
  In g (glm.candidates merged) ->
  let mentions :=
    filter (has_index (glm.index g)) (concat (map glm.candidates chunks)) in
  mentions <> [] /\
  glm.citation_sources (glm.citation_metadata g)
  = concat (map (fun c => glm.citation_sources (glm.citation_metadata c))
                mentions) /\
  NoDup (map glm.category (glm.safety_ratings g)) /\
  forall o, In o (glm.safety_ratings g) ->
    (glm.blocked o = true <->
     exists c r, In c mentions /\ In r (glm.safety_ratings c) /\
                 glm.category r = glm.category o /\ glm.blocked r = true).
Proof.
  intros Hj Hg mentions.
  destruct (join_chunks_ok _ _ Hj) as (first & rest & _ & Hc & _).
  assert (Hby := joined_is_join_of_index _ _ g Hc Hg).
  fold mentions in Hby.
  destruct (join_candidates_ok _ _ Hby) as (c0 & tl & content & HG & _ & _ & Heq).
  split; [rewrite HG; discriminate|].
  rewrite Heq. cbn [glm.citation_metadata glm.safety_ratings].
  rewrite join_citations_sources, map_map.
  split; [reflexivity|].
  rewrite join_safety_absorb.
  destruct (absorb_summarises (concat (map glm.safety_ratings mentions)))
    as (Hnd & _ & Hout).
  split; [exact Hnd|].
  intros o Ho. destruct (Hout o Ho) as [_ Hb]. rewrite Hb. split.
  - intros (x & Hx & Hcx & Hbx). apply in_concat in Hx as (l & Hl & Hx).
    apply in_map_iff in Hl as (c & <- & Hcm). exists c, x. repeat split; auto.
  - intros (c & r & Hcm & Hr & Hcr & Hbr). exists r. repeat split; auto.
    apply in_concat. exists (glm.safety_ratings c). split; [|exact Hr].
    apply in_map. exact Hcm.
Qed.

Lemma merged_candidate_metadata_witness :
  exists merged g,
    _join_chunks [Samples.cited_first; Samples.cited_second] = Ok merged /\
    glm.candidates merged = [g] /\
    glm.citation_sources (glm.citation_metadata g)
    = [Samples.source 0 5 "a"; Samples.source 7 12 "b";
       Samples.source 0 5 "a"] /\
    glm.safety_ratings g
    = [Samples.rating 1 3 false; Samples.rating 2 1 true;
       Samples.rating 3 1 false] /\
    NoDup (map glm.category (glm.safety_ratings g)) /\
    forall o, In o (glm.safety_ratings g) ->
      (glm.blocked o = true <->
       exists c r,
         In c [Samples.annotated 0 "Hello, " 0
                 [Samples.rating 1 2 false; Samples.rating 2 1 true]
                 [Samples.source 0 5 "a"];
               Samples.annotated 0 "world!" 1
                 [Samples.rating 1 3 false; Samples.rating 2 1 false;
                  Samples.rating 3 1 false]
                 [Samples.source 7 12 "b"; Samples.source 0 5 "a"]] /\
         In r (glm.safety_ratings c) /\
         glm.category r = glm.category o /\ glm.blocked r = true).
Proof.
  destruct (merged_candidate_metadata
              [Samples.cited_first; Samples.cited_second]
              (Samples.message
                 [Samples.annotated 0 "Hello, world!" 1
                    [Samples.rating 1 3 false; Samples.rating 2 1 true;
                     Samples.rating 3 1 false]
                    [Samples.source 0 5 "a"; Samples.source 7 12 "b";
                     Samples.source 0 5 "a"]] 0)
              (Samples.annotated 0 "Hello, world!" 1
                 [Samples.rating 1 3 false; Samples.rating 2 1 true;
                  Samples.rating 3 1 false]
                 [Samples.source 0 5 "a"; Samples.source 7 12 "b";
                  Samples.source 0 5 "a"])
              eq_refl (or_introl eq_refl))
    as (_ & Hcit & Hnd & Hbl).
  eexists. eexists.
  split; [reflexivity|]. split; [reflexivity|].
  split; [exact Hcit|]. split; [reflexivity|].
  split; [exact Hnd|exact Hbl].
Defined.

(** ** When the incremental join raises *)

Lemma accumulate_raise_inv rest : forall first e,
  accumulate first rest = Raise e ->
  exists prefix item later merged,
    rest = prefix ++ item :: later /\
    accumulate first prefix = Ok merged /\
    _join_chunks [merged; item] = Raise e.
Proof.
  induction rest as [|item rest IH]; intros first e Ha; [discriminate|].
  rewrite accumulate_cons in Ha.
  destruct (_join_chunks [first; item]) as [j|e'] eqn:Hj; simpl in Ha.
  - destruct (IH j e Ha) as (prefix & item' & later & merged & -> & Hp & He).
    exists (item :: prefix), item', later, merged.
    split; [reflexivity|]. split; [|exact He].
    rewrite accumulate_cons, Hj. exact Hp.
  - injection Ha as <-. exists [], item, rest, first.
    split; [reflexivity|]. split; [reflexivity|exact Hj].
Qed.

(** X11: when the incremental left fold of the iteration raises, it does so
    at the first message at which joining the running result with the
    message raises, and [_join_chunks] applied once to the messages up to
    that one raises the same exception. *)
Theorem incremental_join_raises
    (first : glm.GenerateContentResponse)
    (rest : list glm.GenerateContentResponse) (e : exn) :
  accumulate first rest = Raise e ->
  exists prefix item later merged,
    rest = prefix ++ item :: later /\
    accumulate first prefix = Ok merged /\
    _join_chunks [merged; item] = Raise e /\
    _join_chunks (first :: prefix ++ [item]) = Raise e.
Proof.
  intros Ha.
  destruct (accumulate_raise_inv rest first e Ha)
    as (prefix & item & later & merged & Hsplit & Hp & He).
  exists prefix, item, later, merged.
  split; [exact Hsplit|]. split; [exact Hp|]. split; [exact He|].
  destruct prefix as [|second prefix].
  - unfold accumulate in Hp. simpl in Hp. injection Hp as <-. exact He.
  - apply accumulate_two_is_join in Hp.
    rewrite <- He. symmetry.
    exact (join_chunks_assoc (first :: second :: prefix) merged item Hp).
Qed.

Lemma incremental_join_raises_witness :
  exists prefix item later merged,
    [Samples.world; Samples.stray; Samples.world] = prefix ++ item :: later /\
    accumulate Samples.hello prefix = Ok merged /\
    _join_chunks [merged; item] = Raise AssertionError /\
    _join_chunks (Samples.hello :: prefix ++ [item]) = Raise AssertionError.
Proof.
  exact (incremental_join_raises Samples.hello
           [Samples.world; Samples.stray; Samples.world] AssertionError
           eq_refl).
Defined.

(** ** Joined contents *)

Lemma forallb_role_spec role (l : list glm.Content) :
  forallb (fun c => String.eqb (glm.role c) role) l = true <->
  forall c, In c l -> glm.role c = role.
Proof.
  rewrite forallb_forall. split; intros H c Hc.
  - apply String.eqb_eq. apply H. exact Hc.
  - apply String.eqb_eq. apply H. exact Hc.
Qed.

Lemma concat_nil_iff {A} (ls : list (list A)) :
  concat ls = [] <-> forall l, In l ls -> l = [].
Proof.
  induction ls as [|l ls IH]; simpl.
  - split; [intros _ l []|reflexivity].
  - split.
    + intros H. apply app_eq_nil in H as [-> H]. intros l' [<-|Hl]; [reflexivity|].
      apply IH; assumption.
    + intros H. rewrite (H l (or_introl eq_refl)). simpl. apply IH.
      intros l' Hl. apply H. right. exact Hl.
Qed.

Lemma merge_from_length parts : forall cur,
  length (merge_from cur parts) <= S (length parts).
Proof.
  induction parts as [|p parts IH]; intros cur; simpl; [lia|].
  destruct (falsy (glm.text cur) || falsy (glm.text p)); simpl.
  - specialize (IH p). lia.
  - specialize (IH (glm.Part_text (String.append (glm.text cur) (glm.text p)))).
    lia.
Qed.

(** X12: the outcomes of [_join_contents]. It raises [AssertionError]
    exactly when some content has a role other than the first content's
    (also when no content has a part); it raises [IndexError] exactly when
    it is given no content, or contents of one role that have no part at
    all; it raises nothing else; and when it returns, the content has the
    first content's role and at least one part, and no more parts than the
    contents had together. *)
Theorem join_contents_outcome (contents : list glm.Content) :
  (_join_contents contents = Raise AssertionError <->
   exists c0 rest c, contents = c0 :: rest /\ In c rest /\
                     glm.role c <> glm.role c0) /\
  (_join_contents contents = Raise IndexError <->
   contents = [] \/
   exists c0 rest, contents = c0 :: rest /\
                   (forall c, In c rest -> glm.role c = glm.role c0) /\
                   (forall c, In c contents -> glm.parts c = [])) /\
  (forall e, _join_contents contents = Raise e ->
             e = AssertionError \/ e = IndexError) /\
  (forall joined, _join_contents contents = Ok joined ->
     exists c0 rest, contents = c0 :: rest /\
                     glm.role joined = glm.role c0 /\
                     glm.parts joined <> [] /\
                     length (glm.parts joined) <= length (all_parts contents)).
Proof.
  destruct contents as [|c0 rest].
  - simpl. split; [|split; [|split]].
    + split; [discriminate|]. intros (c & r & x & H & _). discriminate.
    + split; [left; reflexivity|reflexivity].
    + intros e H. injection H as <-. right. reflexivity.
    + discriminate.
  - unfold _join_contents.
    destruct (forallb (fun c => String.eqb (glm.role c) (glm.role c0))
                      (c0 :: rest)) eqn:Hall.
    + assert (Hroles : forall c, In c rest -> glm.role c = glm.role c0).
      { intros c Hc. apply (proj1 (forallb_role_spec _ _) Hall). right. exact Hc. }
      destruct (all_parts (c0 :: rest)) as [|p0 ps] eqn:Hparts.
      * assert (Hnone : forall c, In c (c0 :: rest) -> glm.parts c = []).
        { intros c Hc. rewrite all_parts_concat in Hparts.
          apply (proj1 (concat_nil_iff _) Hparts). apply in_map. exact Hc. }
        simpl. split; [|split; [|split]].
        -- split; [discriminate|].
           intros (c & r & x & H & Hx & Hne). injection H as <- <-.
           contradiction Hne. apply Hroles. exact Hx.
        -- split; [|reflexivity]. intros _. right. exists c0, rest.
           repeat split; assumption.
        -- intros e H. injection H as <-. right. reflexivity.
        -- discriminate.
      * rewrite merge_parts_cons. simpl. split; [|split; [|split]].
        -- split; [discriminate|].
           intros (c & r & x & H & Hx & Hne). injection H as <- <-.
           contradiction Hne. apply Hroles. exact Hx.
        -- split; [discriminate|].
           intros [H|(c & r & H & _ & Hnone)]; [discriminate|].
           injection H as <- <-.
           assert (E : all_parts (c0 :: rest) = []).
           { rewrite all_parts_concat. apply concat_nil_iff. intros l Hl.
             apply in_map_iff in Hl as (c & <- & Hc). apply Hnone. exact Hc. }
           rewrite E in Hparts. discriminate.
        -- discriminate.
        -- intros joined H. injection H as <-. exists c0, rest. simpl.
           repeat split.
           ++ destruct (merge_from_head ps p0) as (h & t & -> & _). discriminate.
           ++ apply merge_from_length.
    + assert (Hbad : exists c, In c rest /\ glm.role c <> glm.role c0).
      { destruct (forallb (fun c => String.eqb (glm.role c) (glm.role c0)) rest)
          eqn:Hrest.
        - simpl in Hall. rewrite String.eqb_refl, Hrest in Hall. discriminate.
        - clear Hall. induction rest as [|c rest IH]; [discriminate|].
          simpl in Hrest. destruct (String.eqb_spec (glm.role c) (glm.role c0)).
          + simpl in Hrest. destruct (IH Hrest) as (x & Hx & Hne).
            exists x. split; [right; exact Hx|exact Hne].
          + exists c. split; [left; reflexivity|assumption]. }
      split; [|split; [|split]].
      * split; [|reflexivity]. intros _. destruct Hbad as (c & Hc & Hne).
        exists c0, rest, c. repeat split; assumption.
      * split; [discriminate|].
        intros [H|(c & r & H & Hroles & _)]; [discriminate|].
        injection H as <- <-. destruct Hbad as (x & Hx & Hne).
        contradiction Hne. apply Hroles. exact Hx.
      * intros e H. injection H as <-. left. reflexivity.
      * discriminate.
Qed.

Lemma separated_adjacent l1 : forall a b l2,
  separated (l1 ++ a :: b :: l2) = true ->
  falsy (glm.text a) || falsy (glm.text b) = true.
Proof.
  induction l1 as [|x l1 IH]; intros a b l2 H.
  - change (separated ([] ++ a :: b :: l2))
      with ((falsy (glm.text a) || falsy (glm.text b)) && separated (b :: l2))
      in H.
    apply andb_true_iff in H as [H _]. exact H.
  - apply (IH a b l2). destruct l1 as [|y l1].
    + change (separated ([x] ++ a :: b :: l2))
        with ((falsy (glm.text x) || falsy (glm.text a))
              && separated ([] ++ a :: b :: l2)) in H.
      apply andb_true_iff in H as [_ H]. exact H.
    + change (separated ((x :: y :: l1) ++ a :: b :: l2))
        with ((falsy (glm.text x) || falsy (glm.text y))
              && separated ((y :: l1) ++ a :: b :: l2)) in H.
      apply andb_true_iff in H as [_ H]. exact H.
Qed.

(** X13: a content [_join_contents] returns never has two parts in a row
    that both carry a non-empty text, and joining it alone again gives it
    back unchanged. *)
Theorem joined_content_is_stable
    (contents : list glm.Content) (joined : glm.Content) :
  _join_contents contents = Ok joined ->
  (forall l1 a b l2, glm.parts joined = l1 ++ a :: b :: l2 ->
                     glm.text a = EmptyString \/ glm.text b = EmptyString) /\
  _join_contents [joined] = Ok joined.
Proof.
  intros Hj. split.
  - destruct (join_contents_ok _ _ Hj) as (c0 & rest & p0 & ps & _ & _ & _ & ->).
    simpl. intros l1 a b l2 Hsplit.
    assert (Hs := merge_from_separated ps p0). rewrite Hsplit in Hs.
    apply separated_adjacent in Hs. apply orb_true_iff in Hs as [H|H];
      [left|right]; apply falsy_empty; exact H.
  - rewrite (join_contents_assoc contents joined [] Hj), app_nil_r. exact Hj.
Qed.

Lemma joined_content_is_stable_witness :
  _join_contents
    [ {| glm.parts := [glm.Part_text "ab"; glm.Part_unset; glm.Part_text "c"];
         glm.role := "model" |} ]
  = Ok {| glm.parts := [glm.Part_text "ab"; glm.Part_unset; glm.Part_text "c"];
          glm.role := "model" |}.
Proof.
  exact (proj2 (joined_content_is_stable
                  [ {| glm.parts := [glm.Part_text "a"; glm.Part_text "b"];
                       glm.role := "model" |};
                    {| glm.parts := [glm.Part_unset; glm.Part_text "c"];
                       glm.role := "model" |} ]
                  _ eq_refl)).
Defined.

Lemma joined_text_merge_from parts : forall cur,
  joined_text (merge_from cur parts) = joined_text (cur :: parts) /\
  textless (merge_from cur parts) = textless (cur :: parts).
Proof.
  induction parts as [|p parts IH]; intros cur; [split; reflexivity|].
  simpl merge_from.
  destruct (falsy (glm.text cur) || falsy (glm.text p)) eqn:Hb.
  - destruct (IH p) as [Ht Hl]. split.
    + simpl in *. rewrite Ht. reflexivity.
    + unfold textless in *. simpl in *. rewrite Hl. reflexivity.
  - apply orb_false_iff in Hb as [Hc Hp].
    destruct (IH (glm.Part_text (String.append (glm.text cur) (glm.text p))))
      as [Ht Hl]. split.
    + rewrite Ht. simpl. rewrite append_assoc. reflexivity.
    + rewrite Hl. unfold textless. simpl.
      rewrite falsy_append, Hc, Hp. reflexivity.
Qed.

(** X14: joining contents loses no text and no other part. The texts of the
    parts of the joined content, put end to end, are the texts of all the
    parts of the contents put end to end, and the parts that carry no text
    (blobs, unset parts, empty texts) are the same, in the same order. *)
Theorem join_contents_keeps_text
    (contents : list glm.Content) (joined : glm.Content) :
  _join_contents contents = Ok joined ->
  joined_text (glm.parts joined) = joined_text (all_parts contents) /\
  textless (glm.parts joined) = textless (all_parts contents).
Proof.
  intros Hj.
  destruct (join_contents_ok _ _ Hj) as (c0 & rest & p0 & ps & _ & _ & Hp & ->).
  rewrite Hp. simpl glm.parts. apply joined_text_merge_from.
Qed.

Lemma join_contents_keeps_text_witness :
  joined_text [glm.Part_text "ab"; glm.Part_unset; glm.Part_text "c"]
  = joined_text
      (all_parts
         [ {| glm.parts := [glm.Part_text "a"; glm.Part_text "b"];
              glm.role := "model" |};
           {| glm.parts := [glm.Part_unset; glm.Part_text "c"];
              glm.role := "model" |} ]).
Proof.
  exact (proj1 (join_contents_keeps_text
                  [ {| glm.parts := [glm.Part_text "a"; glm.Part_text "b"];
                       glm.role := "model" |};
                    {| glm.parts := [glm.Part_unset; glm.Part_text "c"];
                       glm.role := "model" |} ]
                  {| glm.parts := [glm.Part_text "ab"; glm.Part_unset;
                                   glm.Part_text "c"];
                     glm.role := "model" |}
                  eq_refl)).
Defined.

(** ** Joining is incremental *)

(** X15: joining the join of some chunks with one more chunk has the same
    outcome as joining them all at once: the same response, or the same
    exception. *)
Theorem join_chunks_is_incremental
    (chunks : list glm.GenerateContentResponse)
    (joined item : glm.GenerateContentResponse) :
  _join_chunks chunks = Ok joined ->
  _join_chunks [joined; item] = _join_chunks (chunks ++ [item]).
Proof. exact (join_chunks_assoc chunks joined item). Qed.

Lemma join_chunks_is_incremental_witness :
  _join_chunks
    [Samples.message
       [Samples.candidate 0 "model" [glm.Part_text "Hello, world!"] 1] 0;
     Samples.stray]
  = _join_chunks ([Samples.hello; Samples.world] ++ [Samples.stray]).
Proof.
  exact (join_chunks_is_incremental [Samples.hello; Samples.world] _
           Samples.stray eq_refl).
Defined.

(** X16: [_join_safety_ratings_lists] can be applied in stages: joining an
    already joined list with more lists gives what joining all the lists
    gives; in particular joining a joined list alone changes nothing. *)
Theorem join_safety_ratings_in_stages
    (lists more : list (list glm.SafetyRating)) :
  _join_safety_ratings_lists (_join_safety_ratings_lists lists :: more)
  = _join_safety_ratings_lists (lists ++ more) /\
  _join_safety_ratings_lists [_join_safety_ratings_lists lists]
  = _join_safety_ratings_lists lists.
Proof.
  split; [apply join_safety_assoc|].
  rewrite join_safety_assoc, app_nil_r. reflexivity.
Qed.

(** ** Keys of an upload result *)

Lemma lower_not_capital ch :
  client.is_capital ch = true -> client.is_capital (client.lower ch) = false.
Proof.
  unfold client.is_capital, client.lower. intros H.
  apply andb_true_iff in H as [H1 H2].
  apply Nat.leb_le in H1. apply Nat.leb_le in H2.
  rewrite Ascii.nat_ascii_embedding by lia.
  apply andb_false_iff. right. apply Nat.leb_gt. lia.
Qed.

(** X17: the key renaming of [upload_file] leaves no ASCII capital in a
    key, lengthens it by one character for each capital it had, and leaves
    a key without capitals as it is. *)
Theorem snake_key_has_no_capital (key : string) :
  no_capital (client.snake_key key) /\
  String.length (client.snake_key key)
  = String.length key + client.capitals key /\
  (no_capital key -> client.snake_key key = key).
Proof.
  induction key as [|ch rest (IH1 & IH2 & IH3)]; simpl.
  - repeat split.
  - destruct (client.is_capital ch) eqn:Hc; simpl.
    + split; [|split].
      * split; [reflexivity|]. split; [apply lower_not_capital; exact Hc|exact IH1].
      * rewrite IH2. lia.
      * intros [H _]. discriminate.
    + split; [|split].
      * split; assumption.
      * rewrite IH2. reflexivity.
      * intros [_ H]. rewrite (IH3 H). reflexivity.
Qed.

(** For instance: *)
Example snake_key_display_name :
  client.snake_key "displayName" = "display_name"%string /\
  client.snake_key "sha256Hash" = "sha256_hash"%string.
Proof. split; reflexivity. Qed.
